(** * Cil-core: transaction processing, witness-group quorum and array helpers

    A shallow embedding of
      - [src/utils.js]                          ([arrayIntersection], [arrayEquals]),
      - [src/structures/witnessGroupDefinition.js] ([getQuorum]),
      - [src/node/app.js]                       (the [Application] class),
    together with the collaborators of [Application] that the repository
    keeps in other modules (UTXO, PatchDB, Coins, Transaction, Crypto).

    JavaScript objects that are mutated in place and shared between caller
    and callee (the block patch) live in an explicit store; exceptions are
    an explicit result. *)

From Stdlib Require Import ZArith NArith.
From Stdlib.Strings Require Import Ascii String Byte.
From Stdlib.Floats Require Import PrimFloat.
From stdpp Require Import gmap strings list fin_maps pretty.

Open Scope Z_scope.
Open Scope string_scope.

(** ** Exceptions and results *)

(** What a JavaScript [throw] carries.  [Error] is [new Error(message)];
    [TfTypeError] is the error raised by the typeforce library when a value
    does not have the required type; [AssertionError] is a failed
    [assert(...)]; [JsTypeError] is the runtime's own TypeError (reading a
    property of [undefined], [reduce] of an empty array). *)
Inductive Exn : Type :=
  | Error (message : string)
  | TfTypeError
  | AssertionError
  | JsTypeError (message : string).

Inductive Result (A : Type) : Type :=
  | Ok (a : A)
  | Throw (e : Exn).
Arguments Ok {A} a.
Arguments Throw {A} e.

(** ** Buffers and their hexadecimal form *)

Definition Buffer : Type := list Byte.byte.

#[global] Instance byte_eq_dec : EqDecision Byte.byte := Byte.byte_eq_dec.

(** [buf.equals(other)]: byte-wise comparison. *)
Definition Buffer_equals (a b : Buffer) : bool := bool_decide (a = b).

Definition hexDigit (n : N) : ascii :=
  match n with
  | 0%N => "0" | 1%N => "1" | 2%N => "2" | 3%N => "3"
  | 4%N => "4" | 5%N => "5" | 6%N => "6" | 7%N => "7"
  | 8%N => "8" | 9%N => "9" | 10%N => "a" | 11%N => "b"
  | 12%N => "c" | 13%N => "d" | 14%N => "e" | _ => "f"
  end%char.

(** [buf.toString('hex')]: two lower-case digits per byte. *)
Fixpoint Buffer_toString_hex (b : Buffer) : string :=
  match b with
  | [] => EmptyString
  | x :: rest =>
      let n := Byte.to_N x in
      String (hexDigit (n / 16)) (String (hexDigit (n mod 16)) (Buffer_toString_hex rest))
  end.

Definition hexValue (c : ascii) : option N :=
  let n := N_of_ascii c in
  if (48 <=? n)%N && (n <=? 57)%N then Some (n - 48)%N
  else if (97 <=? n)%N && (n <=? 102)%N then Some (n - 87)%N
  else if (65 <=? n)%N && (n <=? 70)%N then Some (n - 55)%N
  else None.

(** [Buffer.from(str, 'hex')]: decodes pairs of hexadecimal digits and stops
    at the first pair that is not one (or at a trailing single character). *)
Fixpoint Buffer_from_hex (s : string) : Buffer :=
  match s with
  | String a (String b rest) =>
      match hexValue a, hexValue b with
      | Some hi, Some lo =>
          match Byte.of_N (16 * hi + lo) with
          | Some x => x :: Buffer_from_hex rest
          | None => []
          end
      | _, _ => []
      end
  | _ => []
  end.

(** ** utils.js *)

Module utils.
Section Arrays.
(** Array elements are compared by the [Set] of the runtime, that is by
    SameValueZero; the element type carries that equality. *)
Context {A : Type} `{Countable A}.

(** [arrayIntersection]: the elements of [array2] that the set built from
    [array1] has, in the order and multiplicity of [array2]. *)
Definition arrayIntersection (array1 array2 : list A) : list A :=
  let cache : gset A := list_to_set array1 in
  filter (λ elem, elem ∈ cache) array2.

Definition arrayEquals (array1 array2 : list A) : bool :=
  bool_decide (length array1 = length array2)
  && bool_decide (length (arrayIntersection array1 array2) = length array1).
End Arrays.
End utils.

(** ** structures/witnessGroupDefinition.js *)

Module WitnessGroupDefinition.

(** The decoded protobuf message held in [this._data].  A field that is
    not set reads as [undefined] ([None]). *)
Record Data : Type := {
  publicKeys : option (list Buffer);
  delegatesPublicKeys : option (list Buffer);
  groupId : option nat;
  quorum : option nat;
  groupContractAddress : option Buffer
}.

(** Truthiness of a number: [0] is falsy. *)
Definition truthyNumber (q : nat) : bool := negb (Nat.eqb q 0).

(** [a || b] on optional arrays: an array, even an empty one, is truthy. *)
Definition orArray (a b : option (list Buffer)) : option (list Buffer) :=
  match a with
  | Some arr => Some arr
  | None => b
  end.

(** [parseInt(n / 2)] for an array length [n]: the quotient [n / 2] is an
    integer or an integer plus one half, printed in positional notation,
    of which [parseInt] keeps the integral digits. *)
Definition parseInt_half (n : nat) : nat := Nat.div n 2.

(** The second and third line of [getQuorum]. *)
Definition majorityOfKeys (d : Data) : Result nat :=
  match orArray (delegatesPublicKeys d) (publicKeys d) with
  | Some arr => Ok (parseInt_half (length arr) + 1)%nat
  | None => Throw (JsTypeError "Cannot read properties of undefined (reading 'length')")
  end.

Definition getQuorum (d : Data) : Result nat :=
  match quorum d with
  | Some q => if truthyNumber q then Ok q else majorityOfKeys d
  | None => majorityOfKeys d
  end.

End WitnessGroupDefinition.

(** ** Collaborators of the Application *)

(** JavaScript values that contract data is made of. *)
Inductive JsVal : Type :=
  | JsNum (n : Z)
  | JsStr (s : string)
  | JsBool (b : bool)
  | JsNull.

(** A JavaScript Number is an IEEE 754 binary64 value, and [+] on two
    Numbers is the binary64 addition (round to nearest, ties to even): it is
    exact on integers up to 2^53 and rounds beyond. *)
Definition Number : Type := float.

(** Modelled from the spec: the Coins value object of section 3,
    [(amount, receiver_address)], immutable once created.  The source keeps
    amounts as Numbers (see its TODO on BN or uint64), and so does the
    embedding: [totalHas += coins.getAmount()] is an addition of Numbers. *)
Record Coins : Type := {
  getAmount : Number;
  getReceiverAddr : Buffer
}.

(** Modelled from the spec: the TxInput and Transaction entities of section 3
    as the Transaction facade of section 6 exposes them: [hash()],
    [hash(i)], [inputs], [claimProofs], [getOutCoins()], [getCode()].  The
    hash is the hexadecimal string that keys the UTXO maps. *)
Record TxInput : Type := {
  txHash : Buffer;
  nTxOutput : nat
}.

Record Transaction : Type := {
  hash : string;
  inputs : list TxInput;
  claimProofs : list Buffer;
  getOutCoins : list Coins;
  getCode : string
}.

(** Modelled from the spec: [tx.hash(i)], which section 4.3 defines to equal
    [tx.hash()] for every input position. *)
Definition hash_at (tx : Transaction) (i : nat) : string := hash tx.

Module UTXO.

(** Modelled from the spec: the UTXO entity of section 3, the live outputs
    of one transaction by output position and the positions already
    spent. *)
Record t : Type := {
  getTxHash : string;
  outputs : gmap nat Coins;
  spent : gset nat
}.

(** Modelled from the spec: [coins_at_index] of section 4.1 with the
    message of section 7 for a position that is not in the live output
    map. *)
Definition coinsAtIndex (u : t) (idx : nat) : Result Coins :=
  match outputs u !! idx with
  | Some coins => Ok coins
  | None =>
      Throw (Error ("Output #" ++ pretty idx ++ " of Tx " ++ getTxHash u
                    ++ " already spent!"))
  end.

(** Modelled from the spec: [spend_coins] of section 4.1; a position
    without a live output is not told apart from a spent one. *)
Definition spendCoins (u : t) (idx : nat) : Result t :=
  match outputs u !! idx with
  | Some _ =>
      Ok {| getTxHash := getTxHash u;
            outputs := delete idx (outputs u);
            spent := {[idx]} ∪ spent u |}
  | None =>
      Throw (Error ("Tx " ++ getTxHash u ++ " index " ++ pretty idx
                    ++ " already deleted!"))
  end.

(** Modelled from the spec: [is_empty] of section 4.1. *)
Definition isEmpty (u : t) : bool := bool_decide (outputs u = ∅).

(** Modelled from the spec: [clone] of section 4.1; values are copied by
    the embedding, so the copy is the value itself. *)
Definition clone (u : t) : t := u.

(** A UTXO created for a transaction that has no outputs in the patch
    yet. *)
Definition fresh (strHash : string) : t :=
  {| getTxHash := strHash; outputs := ∅; spent := ∅ |}.

End UTXO.

(** Modelled from the spec: the Receipt and Contract entities of section 3. *)
Inductive TxStatus : Type := TX_STATUS_OK | TX_STATUS_FAILED.

Record Receipt : Type := {
  getStatus : TxStatus;
  getCoinsUsed : Z;
  getContractAddress : option string
}.

Record Contract : Type := {
  getStoredAddress : string;
  getData : list (string * JsVal);
  getContractCode : string
}.

Module PatchDB.

(** Modelled from the spec: the Patch entity of section 3.  [utxo_map]
    also is the coins view of the patch; [spent_by] keeps, for each spent
    output, the hash of the spending transaction (section 4.2,
    [spend_coins]). *)
Record t : Type := {
  utxo_map : gmap string UTXO.t;
  contract_map : gmap string Contract;
  receipt_map : gmap string Receipt;
  spent_by : gmap (string * nat) string;
  level : option nat
}.

(** [new PatchDB()] *)
Definition empty : t :=
  {| utxo_map := ∅; contract_map := ∅; receipt_map := ∅; spent_by := ∅;
     level := None |}.

(** Modelled from the spec: [get_utxo] of section 4.2. *)
Definition getUtxo (p : t) (strHash : string) : option UTXO.t :=
  utxo_map p !! strHash.

Definition setUtxo (p : t) (strHash : string) (u : UTXO.t) : t :=
  {| utxo_map := <[strHash := u]> (utxo_map p);
     contract_map := contract_map p;
     receipt_map := receipt_map p;
     spent_by := spent_by p;
     level := level p |}.

Definition markSpent (p : t) (strHash : string) (idx : nat)
    (txHashSpent : string) : t :=
  {| utxo_map := utxo_map p;
     contract_map := contract_map p;
     receipt_map := receipt_map p;
     spent_by := <[(strHash, idx) := txHashSpent]> (spent_by p);
     level := level p |}.

(** Modelled from the spec: [spend_coins] of section 4.2: the UTXO of
    storage is cloned into the patch on the first write, then the position
    is spent on the copy of the patch and the spending hash retained.  The
    second component is the patch as the call leaves it, also when it
    throws. *)
Definition spendCoins (p : t) (utxo : UTXO.t) (idx : nat)
    (txHashSpent : string) : Result unit * t :=
  let strHash := UTXO.getTxHash utxo in
  let '(utxoCopy, p1) :=
    match getUtxo p strHash with
    | Some own => (own, p)
    | None => (UTXO.clone utxo, setUtxo p strHash (UTXO.clone utxo))
    end in
  match UTXO.spendCoins utxoCopy idx with
  | Ok utxoSpent =>
      (Ok tt, markSpent (setUtxo p1 strHash utxoSpent) strHash idx txHashSpent)
  | Throw e => (Throw e, p1)
  end.

(** Modelled from the spec: [create_coins] of section 4.2, which fails
    when the pair is a live output of the patch already (the spec gives
    the failure no message). *)
Definition createCoins (p : t) (strHash : string) (idx : nat)
    (coins : Coins) : Result unit * t :=
  let utxo := default (UTXO.fresh strHash) (getUtxo p strHash) in
  match UTXO.outputs utxo !! idx with
  | Some _ => (Throw (Error "coins already exist"), p)
  | None =>
      (Ok tt,
       setUtxo p strHash
         {| UTXO.getTxHash := UTXO.getTxHash utxo;
            UTXO.outputs := <[idx := coins]> (UTXO.outputs utxo);
            UTXO.spent := UTXO.spent utxo |})
  end.

(** Modelled from the spec: [set_contract] of section 4.2. *)
Definition setContract (p : t) (address : string)
    (data : list (string * JsVal)) (code : string) : Result unit * t :=
  (Ok tt,
   {| utxo_map := utxo_map p;
      contract_map :=
        <[address := {| getStoredAddress := address; getData := data;
                        getContractCode := code |}]> (contract_map p);
      receipt_map := receipt_map p;
      spent_by := spent_by p;
      level := level p |}).

(** The coins a patch holds at [(strHash, idx)]. *)
Definition coinsAt (p : t) (strHash : string) (idx : nat) : option Coins :=
  match getUtxo p strHash with
  | Some u => UTXO.outputs u !! idx
  | None => None
  end.

End PatchDB.

(** ** The store of patches and the monad of methods *)

Definition loc : Type := nat.
Abbreviation Heap := (gmap nat PatchDB.t).

(** A method run: from the store before the call to the outcome (a value or
    an exception) and the store after it. *)
Definition M (A : Type) : Type := Heap → Result A * Heap.

Definition ret {A : Type} (a : A) : M A := λ σ, (Ok a, σ).
Definition throw {A : Type} (e : Exn) : M A := λ σ, (Throw e, σ).
Definition bind {A B : Type} (m : M A) (k : A → M B) : M B :=
  λ σ, match m σ with
       | (Ok a, σ') => k a σ'
       | (Throw e, σ') => (Throw e, σ')
       end.
Definition liftResult {A : Type} (r : Result A) : M A := λ σ, (r, σ).

Notation "'let!' x ':=' m 'in' k" := (bind m (λ x, k))
  (at level 10, x name, m at level 100, k at level 200).
Notation "m ';;' k" := (bind m (λ _, k))
  (at level 100, k at level 200, right associativity).

(** [new PatchDB()]: a patch object that no one else holds. *)
Definition newPatchDB : M loc :=
  λ σ, let l := fresh (dom σ) in (Ok l, <[l := PatchDB.empty]> σ).

(** A method call on the patch object at [l]; the object is updated in
    place. *)
Definition callPatch {A : Type} (l : loc)
    (method : PatchDB.t → Result A * PatchDB.t) : M A :=
  λ σ, match σ !! l with
       | Some p => let '(r, p') := method p in (r, <[l := p']> σ)
       | None => (Throw (JsTypeError "not a PatchDB"), σ)
       end.

(** A call of a method of the patch object at [l] that only reads. *)
Definition readPatch {A : Type} (l : loc) (getter : PatchDB.t → A) : M A :=
  λ σ, match σ !! l with
       | Some p => (Ok (getter p), σ)
       | None => (Throw (JsTypeError "not a PatchDB"), σ)
       end.

(** ** node/app.js *)

(** The [types] module that typeforce checks against. *)
Record Types : Type := {
  types_Address : Buffer → bool;
  types_Signature : Buffer → bool;
  types_Hash256bit : Buffer → bool
}.

(** Modelled from the spec: the Crypto facade of section 6.
    [getAddress_buffer k] is [Crypto.getAddress(k, true)] and [getAddress k]
    is [Crypto.getAddress(k)], the same address in hexadecimal. *)
Record CryptoFacade : Type := {
  recoverPubKey : Buffer → Buffer → string;
  getAddress_buffer : string → Buffer;
  getAddress : string → string
}.

(** What the sandbox hands back for the last expression of a contract: the
    object's own enumerable data properties, what its [export()] lists, and
    the source text of a member function. *)
Record Instance : Type := {
  ownProperties : list (string * JsVal);
  export : list string;
  memberSource : string → option string
}.

(** [arr.map(f)] for an [f] that may throw. *)
Fixpoint mapResult {A B : Type} (f : A → Result B) (l : list A) : Result (list B) :=
  match l with
  | [] => Ok []
  | x :: rest =>
      match f x with
      | Ok y =>
          match mapResult f rest with
          | Ok ys => Ok (y :: ys)
          | Throw e => Throw e
          end
      | Throw e => Throw e
      end
  end.

(** [arr.reduce((accumCode, funcCode) => accumCode + funcCode)], without an
    initial value. *)
Definition reduceConcat (l : list string) : Result string :=
  match l with
  | [] => Throw (JsTypeError "Reduce of empty array with no initial value")
  | first :: rest => Ok (fold_left (λ accumCode funcCode, accumCode ++ funcCode) rest first)
  end.

Module Application.
Section Factory.
(** The module is a function of its factory; [types], the sandbox and the
    text of the predefined classes are what it requires besides. *)
Variable TIMEOUT_CODE : nat.
Variable Crypto : CryptoFacade.
Variable types : Types.
Variable vm_run : nat → string → Result (option Instance).
Variable strPredefinedClassesCode : string.

Definition _verifyPayToAddr (address : Buffer) (signature : option Buffer)
    (buffSignedData : Buffer) : Result unit :=
  match signature with
  | Some sig =>
      if types_Address types address && types_Signature types sig
         && types_Hash256bit types buffSignedData
      then
        let pubKey := recoverPubKey Crypto buffSignedData sig in
        if negb (Buffer_equals address (getAddress_buffer Crypto pubKey))
        then Throw (Error "Claim failed!")
        else Ok tt
      else Throw TfTypeError
  | None => Throw TfTypeError
  end.

(** [patch.getUtxo(strInputTxHash) || mapUtxos[strInputTxHash]] *)
Definition lookupUtxo (p : PatchDB.t) (mapUtxos : gmap string UTXO.t)
    (strInputTxHash : string) : option UTXO.t :=
  match PatchDB.getUtxo p strInputTxHash with
  | Some u => Some u
  | None => mapUtxos !! strInputTxHash
  end.

(** One turn of the loop of [processTxInputs]; it yields the coins of the
    input. *)
Definition processInput (tx : Transaction) (mapUtxos : gmap string UTXO.t)
    (patch : loc) (i : nat) (input : TxInput) : M Coins :=
  let buffInputHash := Buffer_from_hex (hash_at tx i) in
  let strInputTxHash := Buffer_toString_hex (txHash input) in
  let! found := readPatch patch (λ p, lookupUtxo p mapUtxos strInputTxHash) in
  match found with
  | None =>
      throw (Error ("UTXO not found for " ++ strInputTxHash
                    ++ " neither in patch nor in mapUtxos"))
  | Some utxo =>
      let! coins := liftResult (UTXO.coinsAtIndex utxo (nTxOutput input)) in
      liftResult (_verifyPayToAddr (getReceiverAddr coins) (claimProofs tx !! i)
                    buffInputHash);;
      callPatch patch (λ p, PatchDB.spendCoins p utxo (nTxOutput input) (hash tx));;
      ret coins
  end.

(** The loop of [processTxInputs] from position [i] on, [rest] being the
    inputs from there. *)
Fixpoint processInputsFrom (tx : Transaction) (mapUtxos : gmap string UTXO.t)
    (patch : loc) (i : nat) (rest : list TxInput) (totalHas : Number) : M Number :=
  match rest with
  | [] => ret totalHas
  | input :: rest' =>
      let! coins := processInput tx mapUtxos patch i input in
      processInputsFrom tx mapUtxos patch (S i) rest' (totalHas + getAmount coins)%float
  end.

Definition processTxInputs (tx : Transaction) (mapUtxos : gmap string UTXO.t)
    (patchForBlock : option loc) : M (loc * Number) :=
  let! patch := match patchForBlock with
                | Some given => ret given
                | None => newPatchDB
                end in
  let! totalHas := processInputsFrom tx mapUtxos patch 0 (inputs tx) 0%float in
  ret (patch, totalHas).

(** The loop of [processPayments] from position [i] on. *)
Fixpoint processPaymentsFrom (strTxHash : string) (patch : loc) (i : nat)
    (rest : list Coins) (totalSent : Number) : M Number :=
  match rest with
  | [] => ret totalSent
  | coins :: rest' =>
      callPatch patch (λ p, PatchDB.createCoins p strTxHash i coins);;
      processPaymentsFrom strTxHash patch (S i) rest' (totalSent + getAmount coins)%float
  end.

Definition processPayments (tx : Transaction) (patch : loc) : M Number :=
  let txCoins := getOutCoins tx in
  processPaymentsFrom (hash tx) patch 0 txCoins 0%float.

Definition createContract (tx : Transaction) (patch : loc) : M Z :=
  let strCode := getCode tx in
  let! retVal := liftResult (vm_run TIMEOUT_CODE (strPredefinedClassesCode ++ strCode)) in
  match retVal with
  | None => throw AssertionError
  | Some retVal =>
      let objData := ownProperties retVal in
      let! arrCode :=
        liftResult
          (mapResult
             (λ strFuncName,
                match memberSource retVal strFuncName with
                | Some funcCode => Ok funcCode
                | None => Throw (JsTypeError "Cannot read properties of undefined (reading 'toString')")
                end)
             (export retVal)) in
      let! strCodeExportedFunctions := liftResult (reduceConcat arrCode) in
      let contractAddr := getAddress Crypto (hash tx) in
      callPatch patch (λ p, PatchDB.setContract p contractAddr objData
                              strCodeExportedFunctions);;
      ret 0
  end.

(** The body of [runContract] is empty: the call yields [undefined]. *)
Definition runContract (strCodeToRun : string) (contractCode : string)
    (patch : loc) (funcToLoadNestedContracts : string → option Contract) : M unit :=
  ret tt.

End Factory.
End Application.

(** ** structures/witnessGroupDefinition.js, construction *)

(** A public key as a caller hands it over: a Buffer, or a string that is
    read as hexadecimal. *)
Inductive KeyArg : Type :=
  | KeyBuffer (b : Buffer)
  | KeyHex (s : string).

(** The plain object that describes a group. *)
Record DefinitionObject : Type := {
  obj_publicKeys : option (list KeyArg);
  obj_groupId : option nat;
  obj_delegatesPublicKeys : option (list KeyArg);
  obj_quorum : option nat;
  obj_groupContractAddress : option Buffer
}.

(** What the constructor is called with: a Buffer, a plain object, or a
    value that is neither (a number, a string, [undefined]). *)
Inductive ConstructorArg : Type :=
  | FromBuffer (b : Buffer)
  | FromObject (data : DefinitionObject)
  | FromOther.

(** [if (!Buffer.isBuffer(k)) k = Buffer.from(k, 'hex')] *)
Definition keyToBuffer (k : KeyArg) : KeyArg :=
  match k with
  | KeyBuffer b => KeyBuffer b
  | KeyHex s => KeyBuffer (Buffer_from_hex s)
  end.

(** The two loops of the constructor: every key of the two lists is made a
    Buffer.  (When the two lists are one array, the first loop has made its
    keys Buffers and the second finds them so.) *)
Definition keysToBuffers (data : DefinitionObject) : DefinitionObject :=
  {| obj_publicKeys := map keyToBuffer <$> obj_publicKeys data;
     obj_groupId := obj_groupId data;
     obj_delegatesPublicKeys := map keyToBuffer <$> obj_delegatesPublicKeys data;
     obj_quorum := obj_quorum data;
     obj_groupContractAddress := obj_groupContractAddress data |}.

Section WitnessGroupConstruction.
(** The deserializer and the protobuf type of the factory. *)
Variable v8_deSerialize : Buffer → Result WitnessGroupDefinition.Data.
Variable proto_verify : DefinitionObject → option string.
Variable proto_create : DefinitionObject → WitnessGroupDefinition.Data.

(** [new WitnessGroupDefinition(data)], as the [_data] it holds. *)
Definition WitnessGroupDefinition_new (data : ConstructorArg)
    : Result WitnessGroupDefinition.Data :=
  match data with
  | FromBuffer b => v8_deSerialize b
  | FromObject data =>
      match proto_verify data with
      | Some (String c errMsg) =>
          Throw (Error ("WitnessGroupDefinition: " ++ String c errMsg))
      | _ => Ok (proto_create (keysToBuffers data))
      end
  | FromOther => Throw (Error "Construct from Buffer|Object")
  end.

(** [WitnessGroupDefinition.create(groupId, arrPublicKeys,
    delegatesPublicKeys)]; typeforce asks for a number and an array. *)
Definition WitnessGroupDefinition_create (groupId : option nat)
    (arrPublicKeys : option (list KeyArg))
    (delegatesPublicKeys : option (list KeyArg))
    : Result WitnessGroupDefinition.Data :=
  match groupId, arrPublicKeys with
  | Some _, Some _ =>
      WitnessGroupDefinition_new
        (FromObject
           {| obj_publicKeys := arrPublicKeys;
              obj_groupId := groupId;
              obj_delegatesPublicKeys :=
                match delegatesPublicKeys with
                | Some delegates => Some delegates
                | None => arrPublicKeys
                end;
              obj_quorum := None;
              obj_groupContractAddress := None |})
  | _, _ => Throw TfTypeError
  end.

(** [getFromContractData(objContractData)], for the
    [_arrGroupDefinitions] of the contract data. *)
Definition getFromContractData (_arrGroupDefinitions : option (list ConstructorArg))
    : Result (list WitnessGroupDefinition.Data) :=
  match _arrGroupDefinitions with
  | Some arr => mapResult WitnessGroupDefinition_new arr
  | None => Throw (JsTypeError "Cannot read properties of undefined (reading 'map')")
  end.
End WitnessGroupConstruction.

(** ** utils.js, the other helpers *)

(** A [Set] of the runtime is its elements in the order of their first
    insertion; a [Map] is its entries in the order of the first insertion
    of their keys.  Elements and keys are compared by SameValueZero, the
    equality that the type carries. *)
Section Collections.
Context {A : Type} `{EqDecision A}.

(** [set.add(x)] *)
Definition Set_add (s : list A) (x : A) : list A :=
  if decide (x ∈ s) then s else (s ++ [x])%list.

(** [new Set(iterable)] *)
Definition Set_new (iterable : list A) : list A :=
  fold_left Set_add iterable [].

(** [mergeSets]: [new Set([...set1, ...set2])] *)
Definition mergeSets (set1 set2 : list A) : list A :=
  Set_new (set1 ++ set2)%list.

Context {V : Type}.

(** [Array.from(map.keys())] *)
Definition Map_keys (m : list (A * V)) : list A := m.*1.

(** [getMapsKeys]: the keys of the maps, one map after the other. *)
Definition getMapsKeys (arrMaps : list (list (A * V))) : list A :=
  fold_left (λ arrResultKeys m, (arrResultKeys ++ Map_keys m)%list) arrMaps [].

(** [getMapsKeysUnique]: the keys of the set built from [getMapsKeys]. *)
Definition getMapsKeysUnique (arrMaps : list (list (A * V))) : list A :=
  let tempSet := Set_new (getMapsKeys arrMaps) in
  tempSet.
End Collections.

Section Pick.
Context {V : Type}.

(** [Object.assign(res, o)] on the own properties of [res], for a source
    [o] given by its own enumerable properties in order.  The assignment to
    the key [__proto__] goes to the setter that every plain object
    inherits and creates no own property. *)
Definition Object_assign (res : gmap string V) (o : list (string * V))
    : gmap string V :=
  fold_left (λ target kv, if String.eqb kv.1 "__proto__" then target
                          else <[kv.1 := kv.2]> target) o res.

(** [pick(obj, keys)].  The object is read through [obj k], which is
    [Some (obj[k])] when [k in obj] holds (own and inherited properties
    alike) and [None] otherwise. *)
Definition pick (obj : string → option V) (keys : list string) : gmap string V :=
  fold_left Object_assign
    (map (λ k, match obj k with
               | Some v => [(k, v)]
               | None => []
               end) keys)
    ∅.
End Pick.

(** [str.substring(n)]: the string without its first [n] characters. *)
Fixpoint String_from (n : nat) (s : string) : string :=
  match n, s with
  | O, _ => s
  | S n', String _ s' => String_from n' s'
  | S _, EmptyString => EmptyString
  end.

(** [stripAddressPrefix(Constants, strAddr)], with [Constants.ADDRESS_PREFIX]
    for its first argument. *)
Definition stripAddressPrefix (ADDRESS_PREFIX strAddr : string) : string :=
  if String.eqb (String.substring 0 2 strAddr) ADDRESS_PREFIX
  then String_from (String.length ADDRESS_PREFIX) strAddr
  else strAddr.

(** The values that [prepareForStringifyObject] meets: primitives,
    functions, Buffers, Longs (with their fields [low], [high] and
    [unsigned]), arrays and plain objects.  An object or a function is its
    own enumerable properties in the order of [Object.keys]; no object
    other than a Long carries a property [__isLong__]. *)
#[warnings="-register-all"]
Inductive Js (Num : Type) : Type :=
  | JUndefined
  | JNull
  | JBoolean (b : bool)
  | JNumber (n : Num)
  | JString (s : string)
  | JFunction (props : list (string * Js Num))
  | JBuffer (b : Buffer)
  | JLong (low high : Num) (unsigned : bool)
  | JArray (elems : list (Js Num))
  | JObject (props : list (string * Js Num)).
Arguments JUndefined {Num}.
Arguments JNull {Num}.
Arguments JBoolean {Num} b.
Arguments JNumber {Num} n.
Arguments JString {Num} s.
Arguments JFunction {Num} props.
Arguments JBuffer {Num} b.
Arguments JLong {Num} low high unsigned.
Arguments JArray {Num} elems.
Arguments JObject {Num} props.

Section Stringify.
Context {Num : Type}.
(** [long.toNumber()] *)
Variable Long_toNumber : Num → Num → bool → Num.

(** [resultObject[key] = value] while the keys come in the order of
    [Object.keys]: a new own property at the end, except for the key
    [__proto__], whose assignment creates none. *)
Definition setKey (key : string) (value : Js Num)
    (rest : list (string * Js Num)) : list (string * Js Num) :=
  if String.eqb key "__proto__" then rest else (key, value) :: rest.

Fixpoint prepareForStringifyObject (obj : Js Num) : Js Num :=
  let prepareKeys :=
    fix prepareKeys (props : list (string * Js Num)) : list (string * Js Num) :=
      match props with
      | [] => []
      | (key, value) :: rest =>
          match value with
          | JFunction _ | JUndefined => prepareKeys rest
          | JBuffer b => setKey key (JString (Buffer_toString_hex b)) (prepareKeys rest)
          | JArray _ => setKey key (prepareForStringifyObject value) (prepareKeys rest)
          | JLong low high unsigned =>
              setKey key (JNumber (Long_toNumber low high unsigned)) (prepareKeys rest)
          | JObject _ => setKey key (prepareForStringifyObject value) (prepareKeys rest)
          | _ => setKey key value (prepareKeys rest)
          end
      end in
  match obj with
  | JFunction props => JObject (prepareKeys props)
  | JBuffer b => JString (Buffer_toString_hex b)
  | JLong low high unsigned =>
      JObject (setKey "low" (JNumber low)
                 (setKey "high" (JNumber high)
                    (setKey "unsigned" (JBoolean unsigned) [])))
  | JArray elems => JArray (map prepareForStringifyObject elems)
  | JObject props => JObject (prepareKeys props)
  | _ => obj
  end.
End Stringify.

(** The loop of [prepareForStringifyObject] over the keys of an object, by
    itself. *)
Fixpoint prepareKeys {Num : Type} (Long_toNumber : Num → Num → bool → Num)
    (props : list (string * Js Num)) : list (string * Js Num) :=
  match props with
  | [] => []
  | (key, value) :: rest =>
      match value with
      | JFunction _ | JUndefined => prepareKeys Long_toNumber rest
      | JBuffer b =>
          setKey key (JString (Buffer_toString_hex b)) (prepareKeys Long_toNumber rest)
      | JLong low high unsigned =>
          setKey key (JNumber (Long_toNumber low high unsigned))
            (prepareKeys Long_toNumber rest)
      | JArray _ | JObject _ =>
          setKey key (prepareForStringifyObject Long_toNumber value)
            (prepareKeys Long_toNumber rest)
      | _ => setKey key value (prepareKeys Long_toNumber rest)
      end
  end.

(** A value in which no function, Buffer or Long is left, and in which no
    object has a property that is [undefined] or is called [__proto__]. *)
Fixpoint isPlain {Num : Type} (v : Js Num) : bool :=
  match v with
  | JFunction _ | JBuffer _ | JLong _ _ _ => false
  | JArray elems => forallb isPlain elems
  | JObject props =>
      forallb (λ kv, match kv with
                     | (_, JUndefined) => false
                     | (key, value) =>
                         negb (String.eqb key "__proto__") && isPlain value
                     end) props
  | _ => true
  end.

(** What [isPlain] asks of a property of an object. *)
Definition plainProperty {Num : Type} (kv : string * Js Num) : bool :=
  match kv with
  | (_, JUndefined) => false
  | (key, value) => negb (String.eqb key "__proto__") && isPlain value
  end.

(** The bytes of a key, whichever way it was handed over. *)
Definition keyBytes (k : KeyArg) : Buffer :=
  match k with
  | KeyBuffer b => b
  | KeyHex s => Buffer_from_hex s
  end.

(** The object that [WitnessGroupDefinition.create] hands to the
    constructor. *)
Definition createdObject (groupId : nat) (keys : list KeyArg)
    (delegates : option (list KeyArg)) : DefinitionObject :=
  {| obj_publicKeys := Some keys;
     obj_groupId := Some groupId;
     obj_delegatesPublicKeys := Some (default keys delegates);
     obj_quorum := None;
     obj_groupContractAddress := None |}.

(** A protobuf type for the scenarios: it accepts every object and its
    messages hold what they were created with, absent fields staying
    absent. *)
Definition demoProtoCreate (data : DefinitionObject) : WitnessGroupDefinition.Data :=
  {| WitnessGroupDefinition.publicKeys :=
       (λ keys : list KeyArg, keyBytes <$> keys) <$> obj_publicKeys data;
     WitnessGroupDefinition.delegatesPublicKeys :=
       (λ keys : list KeyArg, keyBytes <$> keys) <$> obj_delegatesPublicKeys data;
     WitnessGroupDefinition.groupId := obj_groupId data;
     WitnessGroupDefinition.quorum := obj_quorum data;
     WitnessGroupDefinition.groupContractAddress := obj_groupContractAddress data |}.

(** ** Notions that the statements below use *)

(** Every UTXO is kept under the hash of its own transaction. *)
Definition wellKeyed (m : gmap string UTXO.t) : Prop :=
  ∀ strHash u, m !! strHash = Some u → UTXO.getTxHash u = strHash.

(** The output that an input refers to. *)
Definition inputKey (input : TxInput) : string * nat :=
  (Buffer_toString_hex (txHash input), nTxOutput input).

(** The coins that an input refers to, as the patch laid over the snapshot
    shows them. *)
Definition coinsOfInput (p : PatchDB.t) (mapUtxos : gmap string UTXO.t)
    (input : TxInput) : option Coins :=
  match Application.lookupUtxo p mapUtxos (Buffer_toString_hex (txHash input)) with
  | Some u => UTXO.outputs u !! nTxOutput input
  | None => None
  end.

(** The amounts of a list of coins, added one after the other as Numbers:
    [((start + a1) + a2) + ...], each [+] rounding as binary64 does. *)
Definition sumInOrder (start : Number) (cs : list Coins) : Number :=
  fold_left (λ total coins, (total + getAmount coins)%float) cs start.

(** The spend-marks of a list of inputs spent by one transaction. *)
Definition spendMarks (strTxHash : string) (ins : list TxInput)
    (marks : gmap (string * nat) string) : gmap (string * nat) string :=
  fold_left (λ m input, <[inputKey input := strTxHash]> m) ins marks.

(** The UTXO after one of its positions was spent. *)
Definition spentAt (u : UTXO.t) (idx : nat) : UTXO.t :=
  {| UTXO.getTxHash := UTXO.getTxHash u;
     UTXO.outputs := delete idx (UTXO.outputs u);
     UTXO.spent := {[idx]} ∪ UTXO.spent u |}.

(** The patch that [processTxInputs] works on, and the store once it is
    chosen: the patch of the caller, or a new empty one. *)
Definition workingPatch (patchForBlock : option loc) (σ : Heap) : loc * Heap :=
  match patchForBlock with
  | Some given => (given, σ)
  | None => (fresh (dom σ), <[fresh (dom σ) := PatchDB.empty]> σ)
  end.

(** The patch after [patch.spendCoins] was called for one input, and for a
    list of inputs one after the other. *)
Definition spendInput (strTxHash : string) (mapUtxos : gmap string UTXO.t)
    (p : PatchDB.t) (input : TxInput) : PatchDB.t :=
  match Application.lookupUtxo p mapUtxos (Buffer_toString_hex (txHash input)) with
  | Some u => (PatchDB.spendCoins p u (nTxOutput input) strTxHash).2
  | None => p
  end.

Definition spendInputs (strTxHash : string) (mapUtxos : gmap string UTXO.t)
    (ins : list TxInput) (p : PatchDB.t) : PatchDB.t :=
  fold_left (spendInput strTxHash mapUtxos) ins p.

(** The methods' sources joined by a separator, as
    [arr.join(CONTRACT_METHOD_SEPARATOR)] gives them. *)
Definition joinWith (separator : string) (arr : list string) : string :=
  match arr with
  | [] => ""
  | first :: rest =>
      fold_left (λ joined funcCode, joined ++ separator ++ funcCode) rest first
  end.

(** ** The scenarios of the test suite *)

(** Modelled from the spec: the [types] module, with the sizes that
    sections 3 and 6 give (20-byte address, 65-byte signature, 32-byte
    hash). *)
Definition specTypes : Types :=
  {| types_Address := λ b, Nat.eqb (length b) 20;
     types_Signature := λ b, Nat.eqb (length b) 65;
     types_Hash256bit := λ b, Nat.eqb (length b) 32 |}.

(** A stand-in for the Crypto facade in the scenarios: a claim proof names
    its signer in its first 20 bytes, and the address of a key is the key. *)
Definition demoCrypto : CryptoFacade :=
  {| recoverPubKey := λ buffSignedData signature, Buffer_toString_hex (take 20 signature);
     getAddress_buffer := λ publicKey, Buffer_from_hex publicKey;
     getAddress := λ publicKey, publicKey |}.

Definition addrA : Buffer := replicate 20 x0a%byte.
Definition sigA : Buffer := (addrA ++ replicate 45 x00%byte)%list.
Definition sigOther : Buffer := (replicate 20 x0b%byte ++ replicate 45 x00%byte)%list.

Definition utxoHash : Buffer := replicate 32 xab%byte.
Definition strUtxoHash : string := Buffer_toString_hex utxoHash.
Definition unknownHash : Buffer := replicate 32 x77%byte.

Definition coinsA : Coins := {| getAmount := 100000%float; getReceiverAddr := addrA |}.

(** The genesis of the tests: coins for [addrA] at the positions 0, 12 and
    80 of one transaction. *)
Definition genesisUtxo : UTXO.t :=
  {| UTXO.getTxHash := strUtxoHash;
     UTXO.outputs := {[0%nat := coinsA; 12%nat := coinsA; 80%nat := coinsA]};
     UTXO.spent := ∅ |}.

Definition genesisSnapshot : gmap string UTXO.t := {[strUtxoHash := genesisUtxo]}.

(** A store with one empty patch, at location 0. *)
Definition oneEmptyPatch : Heap := {[0%nat := PatchDB.empty]}.

Definition txOf (ins : list TxInput) (proofs : list Buffer) (outs : list Coins)
    : Transaction :=
  {| hash := Buffer_toString_hex (replicate 32 xcd%byte);
     inputs := ins; claimProofs := proofs; getOutCoins := outs; getCode := "" |}.

Definition spend (idx : nat) : TxInput := {| txHash := utxoHash; nTxOutput := idx |}.

(** A group of three keys with two delegates and no quorum of its own. *)
Definition twoDelegates : WitnessGroupDefinition.Data :=
  {| WitnessGroupDefinition.publicKeys := Some [[x01]; [x02]; [x03]]%byte;
     WitnessGroupDefinition.delegatesPublicKeys := Some [[x01]; [x02]]%byte;
     WitnessGroupDefinition.groupId := Some 0%nat;
     WitnessGroupDefinition.quorum := Some 0%nat;
     WitnessGroupDefinition.groupContractAddress := None |}.

(** 'should process TX' *)
Definition txThreeInputs : Transaction :=
  txOf [spend 12; spend 0; spend 80] [sigA; sigA; sigA]
       [{| getAmount := 1000%float; getReceiverAddr := addrA |}].

(** 'should throw (bad claim)' *)
Definition txBadClaim : Transaction :=
  txOf [spend 12] [sigOther] [{| getAmount := 100000%float; getReceiverAddr := addrA |}].

(** A transaction that spends an output of a transaction that the snapshot
    does not have. *)
Definition txUnknownUtxo : Transaction :=
  txOf [{| txHash := unknownHash; nTxOutput := 0 |}] [sigA]
       [{| getAmount := 1000%float; getReceiverAddr := addrA |}].

(** A transaction that spends the same output twice. *)
Definition txSameInputTwice : Transaction :=
  txOf [spend 12; spend 12] [sigA; sigA]
       [{| getAmount := 1000%float; getReceiverAddr := addrA |}].

(** A transaction whose first input has a bad claim and whose second input
    spends an output of a transaction that the snapshot does not have. *)
Definition txBadClaimThenUnknownUtxo : Transaction :=
  txOf [spend 12; {| txHash := unknownHash; nTxOutput := 0 |}] [sigOther; sigA]
       [{| getAmount := 1000%float; getReceiverAddr := addrA |}].

(** 'should process TX from GENESIS block' *)
Definition txIssue : Transaction := txOf [] [] [coinsA].

(** 'should create contract': the instance that the contract of the test,
    with its two methods, evaluates to in a sandbox that has a binding for
    [contractAddr]. *)
Definition strGetDataCode : string := "getData(){ return this._data; }".
Definition strFunc2Code : string := "getAnother(){ return this._data; }".

Definition contractInstance : Instance :=
  {| ownProperties := [("_data", JsNum 10); ("_contractAddr", JsStr "c0de")];
     export := ["getData"; "getAnother"];
     memberSource := λ strFuncName,
       if String.eqb strFuncName "getData" then Some strGetDataCode
       else if String.eqb strFuncName "getAnother" then Some strFunc2Code
       else None |}.

Definition vmOfTest (timeout : nat) (code : string) : Result (option Instance) :=
  Ok (Some contractInstance).

Definition vmTimingOut (timeout : nat) (code : string) : Result (option Instance) :=
  Throw (Error "Script execution timed out.").

Definition txDeploy : Transaction :=
  {| hash := "c0de"; inputs := []; claimProofs := []; getOutCoins := [];
     getCode := "class A extends Base{} exports=new A(10);" |}.

(** The store after [txThreeInputs] was processed on the empty patch. *)
Definition afterThreeInputs : Heap :=
  (Application.processTxInputs demoCrypto specTypes txThreeInputs genesisSnapshot
     (Some 0%nat) oneEmptyPatch).2.

(** A store with two empty patches. *)
Definition twoEmptyPatches : Heap :=
  {[0%nat := PatchDB.empty; 1%nat := PatchDB.empty]}.

(** A sandbox run that hands back an instance that exports no method. *)
Definition vmExportingNothing (timeout : nat) (code : string)
    : Result (option Instance) :=
  Ok (Some {| ownProperties := [("_data", JsNum 10)]; export := [];
              memberSource := λ _, None |}).

(** Amounts at the end of the integers that Numbers hold exactly: 2^53 at
    position 0 and 1 at the positions 1 and 2 of one transaction. *)
Definition two53 : Number := 9007199254740992%float.

Definition coinsOf (amount : Number) : Coins :=
  {| getAmount := amount; getReceiverAddr := addrA |}.

Definition largeUtxo : UTXO.t :=
  {| UTXO.getTxHash := strUtxoHash;
     UTXO.outputs := {[0%nat := coinsOf two53; 1%nat := coinsOf 1%float;
                       2%nat := coinsOf 1%float]};
     UTXO.spent := ∅ |}.

Definition largeSnapshot : gmap string UTXO.t := {[strUtxoHash := largeUtxo]}.

(** A transaction that spends 2^53, 1 and 1 in this order and pays 2^53
    and 1, and one that spends the same coins in the order 1, 1, 2^53. *)
Definition txLargeAmounts : Transaction :=
  txOf [spend 0; spend 1; spend 2] [sigA; sigA; sigA]
       [coinsOf two53; coinsOf 1%float].

Definition txLargeAmountsLast : Transaction :=
  txOf [spend 1; spend 2; spend 0] [sigA; sigA; sigA] [].

(** Modelled from the spec: [proto/predefinedClasses.js] is not under src/;
    section 4.5 has it define the base class that all contracts extend,
    with a reflection helper that lists the names of the class's own
    methods.  A text that does so, taken as the predefined source in the
    deployment below. *)
Definition strBaseClassCode : string :=
  "class Base{ export(){ return Object.getOwnPropertyNames(Object.getPrototypeOf(this)).filter(name => name !== 'constructor'); } };".

(** A contract that [createContract] deploys: the contract of 'should
    create contract' without its accessors and without the assignment
    [this._contractAddr=contractAddr], which names a variable that the
    empty sandbox of [createContract] does not have.  Its last line
    creates the instance, as the comment over [createContract] asks. *)
Definition strTwoMethodsCode : string :=
  "class A extends Base{ constructor(param){ super(); this._data=param; } "
  ++ strGetDataCode ++ " " ++ strFunc2Code ++ " }; new A(10);".

(** The instance that this code evaluates to: its own property is [_data],
    its class declares [getData] and [getAnother], and the source of a
    method is its text in the class body. *)
Definition twoMethodsInstance : Instance :=
  {| ownProperties := [("_data", JsNum 10)];
     export := ["getData"; "getAnother"];
     memberSource := λ strFuncName,
       if String.eqb strFuncName "getData" then Some strGetDataCode
       else if String.eqb strFuncName "getAnother" then Some strFunc2Code
       else None |}.

(** A sandbox that knows this one program, the base class followed by the
    contract, and evaluates it to its instance; any other text it refuses. *)
Definition vmOfTwoMethods (timeout : nat) (code : string) : Result (option Instance) :=
  if String.eqb code (strBaseClassCode ++ strTwoMethodsCode)
  then Ok (Some twoMethodsInstance)
  else Throw (Error "not the program of this scenario").

Definition txDeployTwoMethods : Transaction :=
  {| hash := "c0de"; inputs := []; claimProofs := []; getOutCoins := [];
     getCode := strTwoMethodsCode |}.

(** A value with a Buffer, a function, a Long and an [undefined] in it, for
    numbers that are integers. *)
Definition sampleValue : Js Z :=
  JObject [("hash", JBuffer [xab; x01]%byte);
           ("run", JFunction []);
           ("amount", JLong 5 0 false);
           ("note", JUndefined);
           ("list", JArray [JBuffer [xff]%byte; JUndefined; JFunction []; JNumber 3]);
           ("inner", JObject [("ok", JBoolean true); ("cb", JFunction [])])].

(** [toNumber] of a Long with 32-bit halves, for values that are exact. *)
Definition sampleToNumber (low high : Z) (unsigned : bool) : Z :=
  high * 4294967296 + low.

(** * Properties *)

(** ** The functions on small inputs *)

Example toString_hex_bytes :
  Buffer_toString_hex [xab; x01; xff]%byte = "ab01ff".
Proof. reflexivity. Qed.

Example from_hex_bytes : Buffer_from_hex "ab01FF" = [xab; x01; xff]%byte.
Proof. reflexivity. Qed.

Example from_hex_stops_at_bad_digit : Buffer_from_hex "ab0zff" = [xab]%byte.
Proof. reflexivity. Qed.

Example from_hex_drops_odd_tail : Buffer_from_hex "abc" = [xab]%byte.
Proof. reflexivity. Qed.

Example arrayIntersection_keeps_order_of_second :
  utils.arrayIntersection [1; 2; 3] [3; 5; 1; 3] = [3; 1; 3].
Proof. vm_compute. reflexivity. Qed.

Example arrayEquals_reordered : utils.arrayEquals [1; 2; 3] [3; 1; 2] = true.
Proof. vm_compute. reflexivity. Qed.

Example arrayEquals_other_element : utils.arrayEquals [1; 2; 3] [1; 2; 4] = false.
Proof. vm_compute. reflexivity. Qed.

Example arrayEquals_other_length : utils.arrayEquals [1; 2] [1; 2; 2] = false.
Proof. vm_compute. reflexivity. Qed.

Example getQuorum_of_two_delegates :
  WitnessGroupDefinition.getQuorum twoDelegates = Ok 2%nat.
Proof. reflexivity. Qed.

Example processTxInputs_three_inputs :
  (Application.processTxInputs demoCrypto specTypes txThreeInputs genesisSnapshot
     None ∅).1 = Ok (0%nat, 300000%float).
Proof. vm_compute. reflexivity. Qed.

Example processTxInputs_unknown_position :
  (Application.processTxInputs demoCrypto specTypes
     (txOf [spend 17] [sigA] []) genesisSnapshot None ∅).1
  = Throw (Error ("Output #17 of Tx " ++ strUtxoHash ++ " already spent!")).
Proof. vm_compute. reflexivity. Qed.

Example processTxInputs_unsigned_input :
  (Application.processTxInputs demoCrypto specTypes
     (txOf [spend 12] [] []) genesisSnapshot None ∅).1
  = Throw TfTypeError.
Proof. vm_compute. reflexivity. Qed.

Example processPayments_after_inputs :
  (bind (Application.processTxInputs demoCrypto specTypes txThreeInputs
           genesisSnapshot None)
        (λ r, Application.processPayments txThreeInputs r.1) ∅).1
  = Ok 1000%float.
Proof. vm_compute. reflexivity. Qed.

Example processTxInputs_adds_as_numbers :
  (Application.processTxInputs demoCrypto specTypes txLargeAmounts largeSnapshot
     None ∅).1 = Ok (0%nat, 9007199254740992%float)
  ∧ (Application.processTxInputs demoCrypto specTypes txLargeAmountsLast
       largeSnapshot None ∅).1 = Ok (0%nat, 9007199254740994%float).
Proof. split; vm_compute; reflexivity. Qed.

Example processPayments_adds_as_numbers :
  (Application.processPayments txLargeAmounts 0%nat oneEmptyPatch).1
  = Ok 9007199254740992%float.
Proof. vm_compute. reflexivity. Qed.

Example sumInOrder_of_fractions :
  sumInOrder 0%float [coinsOf 0.5%float; coinsOf 0.25%float] = 0.75%float.
Proof. vm_compute. reflexivity. Qed.

Example processPayments_twice_throws :
  (bind (Application.processPayments txIssue 0%nat)
        (λ _, Application.processPayments txIssue 0%nat) oneEmptyPatch).1
  = Throw (Error "coins already exist").
Proof. vm_compute. reflexivity. Qed.

(** ** utils.js: arrayEquals *)

Section ArrayFacts.
Context {A : Type} `{Countable A}.

Lemma filter_keeps_all_iff (P : A → Prop) `{!∀ x, Decision (P x)} (l : list A) :
  length (filter P l) = length l ↔ Forall P l.
Proof.
  induction l as [|x l IH].
  - split; [constructor | reflexivity].
  - rewrite filter_cons. destruct (decide (P x)) as [HP|HP]; simpl.
    + split.
      * intros Hlen. constructor; [exact HP | apply IH; lia].
      * intros Hall. inversion Hall; subst. f_equal. by apply IH.
    + pose proof (length_filter P l). split; [lia|].
      intros Hall. inversion Hall; subst. contradiction.
Qed.

Lemma arrayIntersection_full (a b : list A) :
  length (utils.arrayIntersection a b) = length b ↔ ∀ e, e ∈ b → e ∈ a.
Proof.
  unfold utils.arrayIntersection. rewrite filter_keeps_all_iff, Forall_forall.
  split; intros Hin e He; specialize (Hin e He).
  - by apply elem_of_list_to_set in Hin.
  - by apply elem_of_list_to_set.
Qed.
End ArrayFacts.

(** C10. [arrayEquals a b] holds exactly when the arrays have the same
    length and every element of [b] occurs in [a]; multiplicities are not
    compared, so [x, x, y] and [x, y, y] are equal for it although, for
    [x ≠ y], neither is a rearrangement of the other. *)
Theorem arrayEquals_is_length_and_membership {A : Type} `{Countable A} :
  (∀ a b : list A,
     utils.arrayEquals a b = true ↔
     length a = length b ∧ ∀ e, e ∈ b → e ∈ a)
  ∧ (∀ x y : A, utils.arrayEquals [x; x; y] [x; y; y] = true)
  ∧ (∀ x y : A, x ≠ y → ¬ [x; x; y] ≡ₚ [x; y; y]).
Proof.
  assert (Hiff : ∀ a b : list A,
     utils.arrayEquals a b = true ↔
     length a = length b ∧ ∀ e, e ∈ b → e ∈ a).
  { intros a b. unfold utils.arrayEquals.
    rewrite andb_true_iff, !bool_decide_eq_true. split.
    - intros [Hlen Hcap]. split; [exact Hlen|].
      apply arrayIntersection_full. congruence.
    - intros [Hlen Hin]. split; [exact Hlen|].
      apply arrayIntersection_full in Hin. congruence. }
  split; [exact Hiff|]. split.
  - intros x y. apply Hiff. split; [reflexivity|].
    intros e. rewrite !elem_of_cons. tauto.
  - intros x y Hxy Hperm.
    assert (Hcount : length (filter (λ e, e = x) [x; x; y])
                     = length (filter (λ e, e = x) [x; y; y])).
    { by rewrite Hperm. }
    rewrite !filter_cons, !filter_nil in Hcount.
    destruct (decide (x = x)); [|congruence].
    destruct (decide (y = x)); [congruence|].
    simpl in Hcount. lia.
Qed.

Lemma arrayEquals_is_length_and_membership_witness :
  utils.arrayEquals [1%nat; 1%nat; 2%nat] [1%nat; 2%nat; 2%nat] = true
  ∧ ¬ [1%nat; 1%nat; 2%nat] ≡ₚ [1%nat; 2%nat; 2%nat].
Proof.
  split.
  - apply (proj1 (proj2 (@arrayEquals_is_length_and_membership nat _ _))).
  - apply (proj2 (proj2 (@arrayEquals_is_length_and_membership nat _ _))). lia.
Defined.

(** ** witnessGroupDefinition.js: getQuorum *)

Lemma half_plus_one_is_majority (n : nat) :
  (n < 2 * (Nat.div n 2 + 1) ∧ 2 * (Nat.div n 2 + 1) ≤ n + 2)%nat.
Proof.
  pose proof (Nat.div_mod_eq n 2) as Hdm.
  pose proof (Nat.mod_upper_bound n 2). lia.
Qed.

(** C9. When the stored quorum is absent or zero, [getQuorum] returns
    [floor(n / 2) + 1] for [n] the number of delegates' keys, or of public
    keys when no list of delegates is stored; that value is a strict
    majority of [n].  A stored quorum that is not zero is returned as it
    is. *)
Theorem getQuorum_majority_unless_stored (d : WitnessGroupDefinition.Data) :
  (∀ delegates,
     WitnessGroupDefinition.quorum d = None ∨ WitnessGroupDefinition.quorum d = Some 0%nat →
     WitnessGroupDefinition.delegatesPublicKeys d = Some delegates →
     WitnessGroupDefinition.getQuorum d = Ok (Nat.div (length delegates) 2 + 1)%nat
     ∧ (length delegates < 2 * (Nat.div (length delegates) 2 + 1))%nat)
  ∧ (∀ keys,
     WitnessGroupDefinition.quorum d = None ∨ WitnessGroupDefinition.quorum d = Some 0%nat →
     WitnessGroupDefinition.delegatesPublicKeys d = None →
     WitnessGroupDefinition.publicKeys d = Some keys →
     WitnessGroupDefinition.getQuorum d = Ok (Nat.div (length keys) 2 + 1)%nat
     ∧ (length keys < 2 * (Nat.div (length keys) 2 + 1))%nat)
  ∧ (∀ q,
     WitnessGroupDefinition.quorum d = Some q → q ≠ 0%nat →
     WitnessGroupDefinition.getQuorum d = Ok q).
Proof.
  unfold WitnessGroupDefinition.getQuorum, WitnessGroupDefinition.majorityOfKeys,
    WitnessGroupDefinition.parseInt_half.
  split; [|split].
  - intros delegates Hfalsy Hdel. split; [|apply half_plus_one_is_majority].
    destruct Hfalsy as [-> | ->]; simpl; by rewrite Hdel.
  - intros keys Hfalsy Hdel Hkeys. split; [|apply half_plus_one_is_majority].
    destruct Hfalsy as [-> | ->]; simpl; by rewrite Hdel, Hkeys.
  - intros q -> Hq. destruct q; [done|reflexivity].
Qed.

Lemma getQuorum_majority_unless_stored_witness :
  (WitnessGroupDefinition.quorum twoDelegates = None
   ∨ WitnessGroupDefinition.quorum twoDelegates = Some 0%nat)
  ∧ WitnessGroupDefinition.delegatesPublicKeys twoDelegates = Some [[x01]; [x02]]%byte
  ∧ WitnessGroupDefinition.getQuorum twoDelegates = Ok 2%nat.
Proof.
  split; [right; reflexivity|]. split; [reflexivity|].
  refine (proj1 (proj1 (getQuorum_majority_unless_stored twoDelegates)
                         [[x01]; [x02]]%byte _ _)).
  - right; reflexivity.
  - reflexivity.
Defined.

(** ** app.js: processTxInputs *)

Ltac unfold_M :=
  unfold bind, ret, throw, liftResult, readPatch, callPatch in *.

Section InputFacts.
Variable Crypto : CryptoFacade.
Variable types : Types.

Local Abbreviation processInput := (Application.processInput Crypto types).
Local Abbreviation processInputsFrom := (Application.processInputsFrom Crypto types).
Local Abbreviation processTxInputs := (Application.processTxInputs Crypto types).
Local Abbreviation _verifyPayToAddr := (Application._verifyPayToAddr Crypto types).
Local Abbreviation lookupUtxo := Application.lookupUtxo.

(** A spend on a UTXO whose position is live cannot leave the patch
    changed and throw. *)
Lemma spendCoins_throw_unchanged p utxo idx coins strTxHash e p' :
  UTXO.outputs utxo !! idx = Some coins →
  PatchDB.spendCoins p utxo idx strTxHash = (Throw e, p') →
  p' = p.
Proof.
  intros Hlive. unfold PatchDB.spendCoins.
  destruct (PatchDB.getUtxo p (UTXO.getTxHash utxo)) as [own|] eqn:Hown.
  - destruct (UTXO.spendCoins own idx); intros [= <- <-] || intros [=]. reflexivity.
  - unfold UTXO.clone, UTXO.spendCoins. rewrite Hlive. intros [=].
Qed.

(** What one turn of the loop does. *)
Lemma processInput_inv tx mapUtxos l i input σ r σ' :
  processInput tx mapUtxos l i input σ = (r, σ') →
  match r with
  | Throw _ => σ' = σ
  | Ok coins =>
      ∃ p utxo p',
        σ !! l = Some p
        ∧ lookupUtxo p mapUtxos (Buffer_toString_hex (txHash input)) = Some utxo
        ∧ UTXO.outputs utxo !! nTxOutput input = Some coins
        ∧ _verifyPayToAddr (getReceiverAddr coins) (claimProofs tx !! i)
            (Buffer_from_hex (hash_at tx i)) = Ok tt
        ∧ PatchDB.spendCoins p utxo (nTxOutput input) (hash tx) = (Ok tt, p')
        ∧ σ' = <[l := p']> σ
  end.
Proof.
  unfold Application.processInput. unfold_M.
  destruct (σ !! l) as [p|] eqn:Hp; [|by intros [= <- <-]].
  destruct (lookupUtxo p mapUtxos _) as [utxo|] eqn:Hfound; [|by intros [= <- <-]].
  unfold UTXO.coinsAtIndex.
  destruct (UTXO.outputs utxo !! nTxOutput input) as [coins|] eqn:Hcoins;
    [|by intros [= <- <-]].
  destruct (_verifyPayToAddr _ _ _) as [[]|e] eqn:Hclaim; [|by intros [= <- <-]].
  rewrite Hp.
  destruct (PatchDB.spendCoins p utxo _ _) as [[[]|e] p'] eqn:Hspend.
  - intros [= <- <-]. by exists p, utxo, p'.
  - intros [= <- <-].
    apply (spendCoins_throw_unchanged _ _ _ _ _ _ _ Hcoins) in Hspend as ->.
    by apply insert_id.
Qed.

Lemma spendCoins_effect p mapUtxos key u idx coins strTxHash :
  wellKeyed (PatchDB.utxo_map p) → wellKeyed mapUtxos →
  lookupUtxo p mapUtxos key = Some u →
  UTXO.outputs u !! idx = Some coins →
  ∃ p', PatchDB.spendCoins p u idx strTxHash = (Ok tt, p')
        ∧ PatchDB.utxo_map p' = <[key := spentAt u idx]> (PatchDB.utxo_map p)
        ∧ PatchDB.spent_by p' = <[(key, idx) := strTxHash]> (PatchDB.spent_by p)
        ∧ PatchDB.contract_map p' = PatchDB.contract_map p
        ∧ PatchDB.receipt_map p' = PatchDB.receipt_map p
        ∧ PatchDB.level p' = PatchDB.level p.
Proof.
  intros Hwp Hws Hfound Hlive.
  assert (Hkey : UTXO.getTxHash u = key).
  { unfold Application.lookupUtxo, PatchDB.getUtxo in Hfound.
    destruct (PatchDB.utxo_map p !! key) as [own|] eqn:Hown.
    - injection Hfound as <-. by apply Hwp.
    - by apply Hws. }
  unfold PatchDB.spendCoins. rewrite Hkey.
  unfold Application.lookupUtxo in Hfound.
  destruct (PatchDB.getUtxo p key) as [own|] eqn:Hown.
  - injection Hfound as ->. unfold UTXO.spendCoins. rewrite Hlive.
    eexists. split; [reflexivity|]. simpl. unfold spentAt. by rewrite Hkey.
  - unfold UTXO.clone, UTXO.spendCoins. rewrite Hlive.
    eexists. split; [reflexivity|]. simpl. rewrite insert_insert_eq.
    unfold spentAt. by rewrite Hkey.
Qed.

Lemma coinsOfInput_after_spend p p' mapUtxos input u x :
  lookupUtxo p mapUtxos (Buffer_toString_hex (txHash input)) = Some u →
  PatchDB.utxo_map p'
    = <[Buffer_toString_hex (txHash input) := spentAt u (nTxOutput input)]>
        (PatchDB.utxo_map p) →
  coinsOfInput p' mapUtxos x
    = if decide (inputKey x = inputKey input) then None
      else coinsOfInput p mapUtxos x.
Proof.
  intros Hfound Hmap.
  unfold coinsOfInput, Application.lookupUtxo, PatchDB.getUtxo, inputKey in *.
  rewrite Hmap.
  destruct (decide (Buffer_toString_hex (txHash x)
                    = Buffer_toString_hex (txHash input))) as [Heq|Hne].
  - rewrite Heq, lookup_insert_eq. simpl.
    destruct (decide (nTxOutput x = nTxOutput input)) as [Hidx|Hidx].
    + rewrite decide_True by congruence. rewrite Hidx. apply lookup_delete_eq.
    + rewrite decide_False by congruence.
      rewrite lookup_delete_ne by congruence.
      by rewrite Hfound.
  - rewrite lookup_insert_ne by congruence.
    rewrite decide_False by congruence. reflexivity.
Qed.

Lemma wellKeyed_after_spend m key u idx :
  wellKeyed m → UTXO.getTxHash u = key → wellKeyed (<[key := spentAt u idx]> m).
Proof.
  intros Hw Hkey h v. rewrite lookup_insert. case_decide.
  - intros [= <-]. simpl. congruence.
  - apply Hw.
Qed.

Lemma lookupUtxo_keyed p mapUtxos key u :
  wellKeyed (PatchDB.utxo_map p) → wellKeyed mapUtxos →
  lookupUtxo p mapUtxos key = Some u → UTXO.getTxHash u = key.
Proof.
  intros Hwp Hws. unfold Application.lookupUtxo, PatchDB.getUtxo.
  destruct (PatchDB.utxo_map p !! key) eqn:Hown.
  - intros [= <-]. by apply Hwp.
  - apply Hws.
Qed.

(** The loop over [l1 ++ l2] is the loop over [l1] followed by the loop
    over [l2]. *)
Lemma processInputsFrom_app tx mapUtxos l l1 l2 i acc σ :
  processInputsFrom tx mapUtxos l i (l1 ++ l2) acc σ
  = match processInputsFrom tx mapUtxos l i l1 acc σ with
    | (Ok mid, σ1) => processInputsFrom tx mapUtxos l (i + length l1) l2 mid σ1
    | (Throw e, σ1) => (Throw e, σ1)
    end.
Proof.
  revert i acc σ. induction l1 as [|input l1 IH]; intros i acc σ; simpl.
  - unfold ret. by rewrite Nat.add_0_r.
  - unfold bind.
    destruct (processInput tx mapUtxos l i input σ) as [[coins|e] σ1]; [|done].
    rewrite IH. by replace (S i + length l1)%nat with (i + S (length l1))%nat by lia.
Qed.

(** A run of the loop that throws has processed a prefix of the inputs
    and then met a turn that throws and leaves the store as it found
    it. *)
Lemma processInputsFrom_throw tx mapUtxos l ins i acc σ e σ' :
  processInputsFrom tx mapUtxos l i ins acc σ = (Throw e, σ') →
  ∃ k input mid,
    ins !! k = Some input
    ∧ processInputsFrom tx mapUtxos l i (take k ins) acc σ = (Ok mid, σ')
    ∧ processInput tx mapUtxos l (i + k) input σ' = (Throw e, σ').
Proof.
  revert i acc σ. induction ins as [|input ins IH]; intros i acc σ; simpl.
  - unfold ret. intros [=].
  - unfold bind at 1.
    destruct (processInput tx mapUtxos l i input σ) as [[coins|e1] σ1] eqn:Hturn.
    + intros Hrest. apply IH in Hrest as (k & x & mid & Hk & Hpre & Hfail).
      exists (S k), x, mid. split; [exact Hk|]. split.
      * simpl. unfold bind. by rewrite Hturn.
      * by replace (i + S k)%nat with (S i + k)%nat by lia.
    + intros [= <- <-].
      pose proof (processInput_inv _ _ _ _ _ _ _ _ Hturn) as Hsame.
      simpl in Hsame. subst σ1.
      exists 0%nat, input, acc. split; [done|]. split; [done|].
      by rewrite Nat.add_0_r.
Qed.

(** What a run of the loop that returns has done. *)
Lemma processInputsFrom_ok tx mapUtxos l ins :
  ∀ i acc σ p total σ',
    wellKeyed (PatchDB.utxo_map p) → wellKeyed mapUtxos →
    σ !! l = Some p →
    processInputsFrom tx mapUtxos l i ins acc σ = (Ok total, σ') →
    ∃ p' cs,
      σ' = <[l := p']> σ
      ∧ wellKeyed (PatchDB.utxo_map p')
      ∧ Forall2 (λ input coins, coinsOfInput p mapUtxos input = Some coins) ins cs
      ∧ total = sumInOrder acc cs
      ∧ NoDup (inputKey <$> ins)
      ∧ (∀ x, coinsOfInput p' mapUtxos x
              = if decide (inputKey x ∈ inputKey <$> ins) then None
                else coinsOfInput p mapUtxos x)
      ∧ PatchDB.spent_by p' = spendMarks (hash tx) ins (PatchDB.spent_by p)
      ∧ PatchDB.contract_map p' = PatchDB.contract_map p
      ∧ PatchDB.receipt_map p' = PatchDB.receipt_map p
      ∧ PatchDB.level p' = PatchDB.level p.
Proof.
  induction ins as [|input ins IH]; intros i acc σ p total σ' Hwp Hws Hp; simpl.
  - unfold ret. intros [= <- <-]. exists p, [].
    split; [by rewrite insert_id|]. split; [done|]. split; [constructor|].
    split; [done|]. split; [constructor|]. split; [|done].
    intros x. reflexivity.
  - unfold bind at 1.
    destruct (processInput tx mapUtxos l i input σ) as [[coins|e1] σ1] eqn:Hturn;
      [|intros [=]].
    intros Hrest.
    apply processInput_inv in Hturn
      as (p0 & u & p1 & Hp0 & Hfound & Hlive & _ & Hspend & ->).
    assert (p0 = p) as -> by congruence.
    destruct (spendCoins_effect p mapUtxos _ u _ coins (hash tx) Hwp Hws Hfound Hlive)
      as (p1' & Hspend' & Hmap & Hmarks & Hc & Hr & Hl).
    assert (p1' = p1) as -> by congruence.
    pose proof (lookupUtxo_keyed _ _ _ _ Hwp Hws Hfound) as Hkey.
    assert (Hwp1 : wellKeyed (PatchDB.utxo_map p1)).
    { rewrite Hmap. by apply wellKeyed_after_spend. }
    pose proof (coinsOfInput_after_spend p p1 mapUtxos input u) as Hview.
    specialize (IH (S i) (acc + getAmount coins)%float (<[l := p1]> σ) p1 total σ'
                   Hwp1 Hws (lookup_insert_eq _ _ _) Hrest)
      as (p' & cs & -> & Hwp' & Hall & -> & Hnodup & Hview' & Hmarks' & Hc' & Hr' & Hl').
    assert (Hrestkeys : Forall (λ x, inputKey x ≠ inputKey input) ins).
    { apply Forall_forall. intros x Hx Heq.
      apply list_elem_of_lookup in Hx as [k Hk].
      eapply Forall2_lookup_l in Hall as (c & _ & Hc0); [|exact Hk].
      rewrite (Hview x Hfound Hmap), decide_True in Hc0 by exact Heq. done. }
    exists p', (coins :: cs).
    split; [by rewrite insert_insert_eq|]. split; [exact Hwp'|]. split.
    { constructor.
      - unfold coinsOfInput. by rewrite Hfound.
      - eapply Forall2_impl; [exact Hall|]. intros x c. simpl.
        rewrite (Hview x Hfound Hmap). by case_decide. }
    split; [reflexivity|]. split.
    { constructor; [|exact Hnodup].
      intros Hin. apply list_elem_of_fmap in Hin as (x & Heq & Hx).
      rewrite Forall_forall in Hrestkeys. by apply (Hrestkeys x Hx). }
    split.
    { intros x. rewrite Hview', (Hview x Hfound Hmap).
      destruct (decide (inputKey x ∈ inputKey <$> ins)) as [Hin|Hnin].
      - rewrite decide_True; [done|]. by right.
      - destruct (decide (inputKey x = inputKey input)) as [Heq|Hne].
        + rewrite decide_True; [done|]. rewrite Heq. by left.
        + rewrite decide_False; [done|]. rewrite elem_of_cons. tauto. }
    split; [|by rewrite Hc', Hr', Hl'].
    rewrite Hmarks', Hmarks. reflexivity.
Qed.

(** The patch of a run of the loop that returns holds the spends of its
    inputs, made in their order, and nothing else. *)
Lemma processInputsFrom_ok_patch tx mapUtxos l ins :
  ∀ i acc σ p total σ',
    σ !! l = Some p →
    processInputsFrom tx mapUtxos l i ins acc σ = (Ok total, σ') →
    σ' = <[l := spendInputs (hash tx) mapUtxos ins p]> σ.
Proof.
  induction ins as [|input ins IH]; intros i acc σ p total σ' Hp; simpl.
  - unfold ret. intros [= <- <-]. by rewrite insert_id.
  - unfold bind at 1.
    destruct (processInput tx mapUtxos l i input σ) as [[coins|e1] σ1] eqn:Hturn;
      [|intros [=]].
    intros Hrest.
    apply processInput_inv in Hturn
      as (p0 & u & p1 & Hp0 & Hfound & _ & _ & Hspend & ->).
    assert (p0 = p) as -> by congruence.
    apply (IH _ _ _ p1) in Hrest; [|apply lookup_insert_eq].
    rewrite insert_insert_eq in Hrest. rewrite Hrest.
    unfold spendInputs at 2. simpl. unfold spendInput at 2.
    by rewrite Hfound, Hspend.
Qed.

Lemma processInput_ok tx mapUtxos l i input σ p u coins :
  σ !! l = Some p →
  lookupUtxo p mapUtxos (Buffer_toString_hex (txHash input)) = Some u →
  UTXO.outputs u !! nTxOutput input = Some coins →
  _verifyPayToAddr (getReceiverAddr coins) (claimProofs tx !! i)
    (Buffer_from_hex (hash_at tx i)) = Ok tt →
  processInput tx mapUtxos l i input σ
  = match PatchDB.spendCoins p u (nTxOutput input) (hash tx) with
    | (Ok _, p') => (Ok coins, <[l := p']> σ)
    | (Throw e, p') => (Throw e, <[l := p']> σ)
    end.
Proof.
  intros Hp Hfound Hlive Hclaim.
  unfold Application.processInput. unfold_M.
  rewrite Hp, Hfound. unfold UTXO.coinsAtIndex. rewrite Hlive, Hclaim, Hp.
  by destruct (PatchDB.spendCoins p u _ _) as [[[]|e] p'].
Qed.

(** The loop returns when the inputs refer to distinct outputs that the
    patch laid over the snapshot holds and every claim verifies. *)
Lemma processInputsFrom_succeeds tx mapUtxos l ins :
  ∀ i acc σ p cs,
    wellKeyed (PatchDB.utxo_map p) → wellKeyed mapUtxos →
    σ !! l = Some p →
    NoDup (inputKey <$> ins) →
    Forall2 (λ input coins, coinsOfInput p mapUtxos input = Some coins) ins cs →
    (∀ k coins, cs !! k = Some coins →
       _verifyPayToAddr (getReceiverAddr coins) (claimProofs tx !! (i + k)%nat)
         (Buffer_from_hex (hash_at tx (i + k))) = Ok tt) →
    ∃ σ', processInputsFrom tx mapUtxos l i ins acc σ = (Ok (sumInOrder acc cs), σ').
Proof.
  induction ins as [|input ins IH]; intros i acc σ p cs Hwp Hws Hp Hnodup Hall Hclaims.
  - inversion Hall; subst. simpl. by eexists.
  - inversion Hall as [|? coins ? cs' Hcoins Hall']; subst.
    simpl in Hnodup. apply NoDup_cons in Hnodup as [Hfirst Hnodup].
    unfold coinsOfInput in Hcoins.
    destruct (lookupUtxo p mapUtxos _) as [u|] eqn:Hfound; [|done].
    destruct (spendCoins_effect p mapUtxos _ u _ coins (hash tx) Hwp Hws Hfound Hcoins)
      as (p1 & Hspend & Hmap & _).
    pose proof (Hclaims 0%nat coins eq_refl) as Hclaim.
    rewrite Nat.add_0_r in Hclaim.
    simpl. unfold bind at 1.
    rewrite (processInput_ok _ _ _ _ _ _ p u coins Hp Hfound Hcoins Hclaim), Hspend.
    apply (IH _ _ _ p1).
    + rewrite Hmap. apply wellKeyed_after_spend; [done|].
      by apply (lookupUtxo_keyed p mapUtxos).
    + exact Hws.
    + apply lookup_insert_eq.
    + exact Hnodup.
    + apply Forall2_same_length_lookup. split; [by eapply Forall2_length|].
      intros k x c Hx Hc.
      rewrite (coinsOfInput_after_spend p p1 mapUtxos input u x Hfound Hmap).
      rewrite decide_False.
      * eapply Forall2_lookup_lr in Hall'; eauto.
      * intros Heq. apply Hfirst. rewrite <- Heq.
        apply list_elem_of_fmap. exists x. split; [done|].
        by eapply list_elem_of_lookup_2.
    + intros k c Hc. specialize (Hclaims (S k) c Hc).
      by replace (S i + k)%nat with (i + S k)%nat by lia.
Qed.

Lemma processTxInputs_unfold tx mapUtxos patchForBlock σ :
  processTxInputs tx mapUtxos patchForBlock σ
  = match processInputsFrom tx mapUtxos (workingPatch patchForBlock σ).1 0
            (inputs tx) 0%float (workingPatch patchForBlock σ).2 with
    | (Ok totalHas, σ') => (Ok ((workingPatch patchForBlock σ).1, totalHas), σ')
    | (Throw e, σ') => (Throw e, σ')
    end.
Proof.
  unfold Application.processTxInputs, workingPatch, newPatchDB. unfold_M.
  destruct patchForBlock; simpl;
    by destruct (processInputsFrom _ _ _ _ _ _ _) as [[?|?] ?].
Qed.

(** A turn that throws 'Claim failed!' has found the coins of its input
    and derived an address that differs from their receiver. *)
Lemma processInput_claim_failed tx mapUtxos l i input σ σ' :
  processInput tx mapUtxos l i input σ = (Throw (Error "Claim failed!"), σ') →
  ∃ p u coins sig,
    σ !! l = Some p
    ∧ lookupUtxo p mapUtxos (Buffer_toString_hex (txHash input)) = Some u
    ∧ UTXO.outputs u !! nTxOutput input = Some coins
    ∧ claimProofs tx !! i = Some sig
    ∧ getReceiverAddr coins
      ≠ getAddress_buffer Crypto
          (recoverPubKey Crypto (Buffer_from_hex (hash_at tx i)) sig).
Proof.
  unfold Application.processInput. unfold_M.
  destruct (σ !! l) as [p|] eqn:Hp; [|intros [=]].
  destruct (lookupUtxo p mapUtxos _) as [u|] eqn:Hfound; [|intros [=]].
  unfold UTXO.coinsAtIndex.
  destruct (UTXO.outputs u !! nTxOutput input) as [coins|] eqn:Hlive; [|intros [=]].
  destruct (_verifyPayToAddr _ _ _) as [[]|e] eqn:Hclaim.
  - rewrite Hp.
    destruct (PatchDB.spendCoins p u _ _) as [[[]|e] p'] eqn:Hspend; [intros [=]|].
    unfold PatchDB.spendCoins in Hspend.
    destruct (PatchDB.getUtxo p (UTXO.getTxHash u)) as [own|].
    + unfold UTXO.spendCoins in Hspend.
      destruct (UTXO.outputs own !! nTxOutput input); [done|].
      injection Hspend as <- <-. intros [=].
    + unfold UTXO.clone, UTXO.spendCoins in Hspend. by rewrite Hlive in Hspend.
  - intros [= -> <-]. exists p, u, coins.
    unfold Application._verifyPayToAddr in Hclaim.
    destruct (claimProofs tx !! i) as [sig|]; [|done]. exists sig.
    repeat (split; [done|]).
    destruct (_ && _); [|done].
    unfold Buffer_equals in Hclaim.
    destruct (bool_decide _) eqn:Heq; [done|].
    by apply bool_decide_eq_false in Heq.
Qed.

(** C1. [processTxInputs] returns the patch it worked on, which is the
    patch of the caller when one was passed and a new empty patch
    otherwise, and the sum, in the order of the inputs, of the amounts of
    the coins that the inputs refer to: the Number that [totalHas] holds
    after [totalHas += amount] ran for each input in order, starting from
    0, every addition being the binary64 addition of Numbers (so the exact
    integer sum as long as that stays within 2^53, and its rounding
    beyond).  It does return when the inputs refer to distinct outputs
    that are there and every claim verifies. *)
Theorem processTxInputs_returns_patch_and_total tx mapUtxos patchForBlock σ l σ0 p :
  workingPatch patchForBlock σ = (l, σ0) →
  σ0 !! l = Some p →
  wellKeyed (PatchDB.utxo_map p) → wellKeyed mapUtxos →
  match patchForBlock with
  | Some given => l = given ∧ σ0 = σ
  | None => σ !! l = None ∧ p = PatchDB.empty
  end
  ∧ (∀ r total σ',
       processTxInputs tx mapUtxos patchForBlock σ = (Ok (r, total), σ') →
       r = l
       ∧ ∃ cs, Forall2 (λ input coins, coinsOfInput p mapUtxos input = Some coins)
                 (inputs tx) cs
               ∧ total = sumInOrder 0%float cs)
  ∧ (∀ cs,
       NoDup (inputKey <$> inputs tx) →
       Forall2 (λ input coins, coinsOfInput p mapUtxos input = Some coins)
         (inputs tx) cs →
       (∀ k coins, cs !! k = Some coins →
          _verifyPayToAddr (getReceiverAddr coins) (claimProofs tx !! k)
            (Buffer_from_hex (hash_at tx k)) = Ok tt) →
       ∃ σ', processTxInputs tx mapUtxos patchForBlock σ
             = (Ok (l, sumInOrder 0%float cs), σ')).
Proof.
  intros Hwork Hp Hwp Hws. split; [|split].
  - destruct patchForBlock as [given|]; simpl in Hwork.
    + by injection Hwork as <- <-.
    + injection Hwork as <- <-. rewrite lookup_insert_eq in Hp.
      split; [|congruence].
      apply not_elem_of_dom. apply is_fresh.
  - intros r total σ'. rewrite processTxInputs_unfold, Hwork. simpl.
    destruct (processInputsFrom _ _ _ _ _ _ _) as [[t|e] σ1] eqn:Hloop; [|intros [=]].
    intros [= <- <- <-]. split; [done|].
    destruct (processInputsFrom_ok _ _ _ _ _ _ _ _ _ _ Hwp Hws Hp Hloop)
      as (p' & cs & _ & _ & Hall & Htotal & _).
    by exists cs.
  - intros cs Hnodup Hall Hclaims.
    rewrite processTxInputs_unfold, Hwork. simpl.
    destruct (processInputsFrom_succeeds tx mapUtxos l (inputs tx) 0 0%float σ0 p cs
                Hwp Hws Hp Hnodup Hall Hclaims) as [σ' ->].
    by exists σ'.
Qed.

(** C2. The claim of an input is verified by recovering a public key from
    the signed digest and the claim proof, deriving its address and
    comparing it with the receiver of the coins: for an input whose coins
    are found and whose arguments have the types that the check expects,
    the turn throws 'Claim failed!' exactly when the two addresses differ,
    and spends the coins otherwise.  Whenever [processTxInputs] throws
    'Claim failed!', it is for such a difference at one of the inputs. *)
Theorem claim_failed_iff_address_differs tx mapUtxos l i input σ p u coins sig :
  σ !! l = Some p →
  lookupUtxo p mapUtxos (Buffer_toString_hex (txHash input)) = Some u →
  UTXO.outputs u !! nTxOutput input = Some coins →
  claimProofs tx !! i = Some sig →
  types_Address types (getReceiverAddr coins) = true →
  types_Signature types sig = true →
  types_Hash256bit types (Buffer_from_hex (hash_at tx i)) = true →
  let derived :=
    getAddress_buffer Crypto
      (recoverPubKey Crypto (Buffer_from_hex (hash_at tx i)) sig) in
  (_verifyPayToAddr (getReceiverAddr coins) (Some sig)
     (Buffer_from_hex (hash_at tx i)) = Throw (Error "Claim failed!")
   ↔ getReceiverAddr coins ≠ derived)
  ∧ (processInput tx mapUtxos l i input σ = (Throw (Error "Claim failed!"), σ)
     ↔ getReceiverAddr coins ≠ derived)
  ∧ (getReceiverAddr coins = derived →
     wellKeyed (PatchDB.utxo_map p) → wellKeyed mapUtxos →
     processInput tx mapUtxos l i input σ
     = (Ok coins, <[l := spendInput (hash tx) mapUtxos p input]> σ))
  ∧ (∀ patchForBlock σ1 σ',
       processTxInputs tx mapUtxos patchForBlock σ1
       = (Throw (Error "Claim failed!"), σ') →
       ∃ k input' p' u' coins' sig',
         inputs tx !! k = Some input'
         ∧ σ' !! (workingPatch patchForBlock σ1).1 = Some p'
         ∧ lookupUtxo p' mapUtxos (Buffer_toString_hex (txHash input')) = Some u'
         ∧ UTXO.outputs u' !! nTxOutput input' = Some coins'
         ∧ claimProofs tx !! k = Some sig'
         ∧ getReceiverAddr coins'
           ≠ getAddress_buffer Crypto
               (recoverPubKey Crypto (Buffer_from_hex (hash_at tx k)) sig')).
Proof.
  intros Hp Hfound Hlive Hsig Haddr Hsigty Hhash derived.
  assert (Hverify :
    _verifyPayToAddr (getReceiverAddr coins) (Some sig)
      (Buffer_from_hex (hash_at tx i))
    = if bool_decide (getReceiverAddr coins = derived) then Ok tt
      else Throw (Error "Claim failed!")).
  { unfold Application._verifyPayToAddr. rewrite Haddr, Hsigty, Hhash. simpl.
    unfold Buffer_equals. fold derived. by destruct (bool_decide _). }
  split; [|split; [|split]].
  - rewrite Hverify. case_bool_decide; split; intros; done.
  - split.
    + intros Hturn Heq.
      apply processInput_claim_failed in Hturn
        as (p0 & u0 & coins0 & sig0 & Hp0 & Hfound0 & Hlive0 & Hsig0 & Hdiff).
      unfold derived in Heq. by simplify_eq.
    + intros Hdiff. unfold Application.processInput. unfold_M.
      rewrite Hp, Hfound. unfold UTXO.coinsAtIndex. rewrite Hlive, Hsig, Hverify.
      by rewrite bool_decide_eq_false_2.
  - intros Heq Hwp Hws.
    rewrite (processInput_ok tx mapUtxos l i input σ p u coins Hp Hfound Hlive).
    + unfold spendInput. rewrite Hfound.
      destruct (spendCoins_effect p mapUtxos _ u _ coins (hash tx) Hwp Hws Hfound Hlive)
        as (p' & -> & _). reflexivity.
    + rewrite Hsig, Hverify. by rewrite bool_decide_eq_true_2.
  - intros patchForBlock σ1 σ'. rewrite processTxInputs_unfold.
    destruct (processInputsFrom _ _ _ _ _ _ _) as [[t|e] σ2] eqn:Hloop; [intros [=]|].
    intros [= -> ->].
    apply processInputsFrom_throw in Hloop as (k & x & mid & Hk & _ & Hfail).
    apply processInput_claim_failed in Hfail
      as (p0 & u0 & coins0 & sig0 & Hp0 & Hfound0 & Hlive0 & Hsig0 & Hdiff).
    by exists k, x, p0, u0, coins0, sig0.
Qed.

(** C3, amended. When the loop reaches an input whose transaction hash is
    neither in the working patch nor in the snapshot, [processTxInputs]
    throws the error 'UTXO not found for <hash> neither in patch nor in
    mapUtxos' and leaves the store as the earlier inputs left it; the
    lookup takes the UTXO of the working patch when it has one and the
    one of the snapshot only otherwise. *)
Theorem utxo_not_found_names_patch_and_snapshot
    tx mapUtxos patchForBlock σ k input mid σk p :
  inputs tx !! k = Some input →
  processInputsFrom tx mapUtxos (workingPatch patchForBlock σ).1 0
    (take k (inputs tx)) 0%float (workingPatch patchForBlock σ).2 = (Ok mid, σk) →
  σk !! (workingPatch patchForBlock σ).1 = Some p →
  let strInputTxHash := Buffer_toString_hex (txHash input) in
  (PatchDB.getUtxo p strInputTxHash = None →
   mapUtxos !! strInputTxHash = None →
   processTxInputs tx mapUtxos patchForBlock σ
   = (Throw (Error ("UTXO not found for " ++ strInputTxHash
                    ++ " neither in patch nor in mapUtxos")), σk))
  ∧ (∀ own, PatchDB.getUtxo p strInputTxHash = Some own →
            lookupUtxo p mapUtxos strInputTxHash = Some own)
  ∧ (PatchDB.getUtxo p strInputTxHash = None →
     lookupUtxo p mapUtxos strInputTxHash = mapUtxos !! strInputTxHash).
Proof.
  intros Hk Hpre Hp strInputTxHash. split; [|split].
  - intros Hpatch Hsnap. rewrite processTxInputs_unfold.
    rewrite <- (take_drop_middle (inputs tx) k input Hk) at 1.
    rewrite processInputsFrom_app, Hpre. simpl. unfold bind at 1.
    assert (Hturn :
      processInput tx mapUtxos (workingPatch patchForBlock σ).1
        (length (take k (inputs tx))) input σk
      = (Throw (Error ("UTXO not found for " ++ strInputTxHash
                       ++ " neither in patch nor in mapUtxos")), σk)).
    { unfold Application.processInput. unfold_M. rewrite Hp.
      unfold Application.lookupUtxo. fold strInputTxHash.
      by rewrite Hpatch, Hsnap. }
    by rewrite Hturn.
  - intros own Hown. unfold Application.lookupUtxo. by rewrite Hown.
  - intros Hnone. unfold Application.lookupUtxo. by rewrite Hnone.
Qed.

(** C4. When [processTxInputs] throws on the patch of the caller, it
    throws at some input [k], and the store then is the one before the
    call with the patch of the caller changed by the spends of the inputs
    before [k], made in their order, and by nothing else: the turn that
    throws leaves the store as it found it.  For UTXO maps keyed by their
    own hash, the spend-marks of the patch then are the old ones and those
    of the inputs before [k], every other output is as it was, and
    contracts, receipts and level are untouched. *)
Theorem processTxInputs_throw_keeps_earlier_spends tx mapUtxos given σ p e σ' :
  σ !! given = Some p →
  processTxInputs tx mapUtxos (Some given) σ = (Throw e, σ') →
  ∃ k input,
    inputs tx !! k = Some input
    ∧ σ' = <[given := spendInputs (hash tx) mapUtxos (take k (inputs tx)) p]> σ
    ∧ processInput tx mapUtxos given k input σ' = (Throw e, σ')
    ∧ (wellKeyed (PatchDB.utxo_map p) → wellKeyed mapUtxos →
       let p' := spendInputs (hash tx) mapUtxos (take k (inputs tx)) p in
       PatchDB.spent_by p'
       = spendMarks (hash tx) (take k (inputs tx)) (PatchDB.spent_by p)
       ∧ (∀ x, coinsOfInput p' mapUtxos x
               = if decide (inputKey x ∈ inputKey <$> take k (inputs tx))
                 then None else coinsOfInput p mapUtxos x)
       ∧ PatchDB.contract_map p' = PatchDB.contract_map p
       ∧ PatchDB.receipt_map p' = PatchDB.receipt_map p
       ∧ PatchDB.level p' = PatchDB.level p).
Proof.
  intros Hp. rewrite processTxInputs_unfold. simpl.
  destruct (processInputsFrom _ _ _ _ _ _ _) as [[t|e1] σ1] eqn:Hloop; [intros [=]|].
  intros [= -> ->].
  apply processInputsFrom_throw in Hloop as (k & input & mid & Hk & Hpre & Hfail).
  exists k, input. split; [exact Hk|].
  pose proof (processInputsFrom_ok_patch _ _ _ _ _ _ _ _ _ _ Hp Hpre) as Hstore.
  split; [exact Hstore|]. split; [exact Hfail|].
  intros Hwp Hws.
  set (p' := spendInputs (hash tx) mapUtxos (take k (inputs tx)) p) in *.
  destruct (processInputsFrom_ok _ _ _ _ _ _ _ _ _ _ Hwp Hws Hp Hpre)
    as (p1 & cs & Hstore1 & _ & _ & _ & _ & Hview & Hmarks & Hc & Hr & Hl).
  assert (p1 = p') as ->.
  { assert (Hlk : (<[given := p1]> σ) !! given = (<[given := p']> σ) !! given)
      by congruence.
    rewrite !lookup_insert_eq in Hlk. congruence. }
  done.
Qed.

(** ** app.js: processPayments *)

Lemma createCoins_effect p strHash idx coins :
  PatchDB.coinsAt p strHash idx = None →
  ∃ p', PatchDB.createCoins p strHash idx coins = (Ok tt, p')
        ∧ PatchDB.coinsAt p' strHash idx = Some coins
        ∧ (∀ j, j ≠ idx → PatchDB.coinsAt p' strHash j = PatchDB.coinsAt p strHash j)
        ∧ (∀ h, h ≠ strHash → PatchDB.getUtxo p' h = PatchDB.getUtxo p h).
Proof.
  unfold PatchDB.coinsAt, PatchDB.createCoins, PatchDB.getUtxo. intros Hfree.
  assert (Hdef : UTXO.outputs (default (UTXO.fresh strHash)
                                 (PatchDB.utxo_map p !! strHash)) !! idx = None).
  { destruct (PatchDB.utxo_map p !! strHash); [exact Hfree|apply lookup_empty]. }
  rewrite Hdef. eexists. split; [reflexivity|]. simpl. split; [|split].
  - rewrite lookup_insert_eq. simpl. by rewrite lookup_insert_eq.
  - intros j Hj. rewrite lookup_insert_eq. simpl. rewrite lookup_insert_ne by done.
    by destruct (PatchDB.utxo_map p !! strHash).
  - intros h Hh. by rewrite lookup_insert_ne.
Qed.

(** The loop of [processPayments] on a patch in which the positions it
    writes are free. *)
Lemma processPaymentsFrom_ok strHash l rest :
  ∀ i acc σ p,
    σ !! l = Some p →
    (∀ j, (j < length rest)%nat → PatchDB.coinsAt p strHash (i + j) = None) →
    ∃ p',
      Application.processPaymentsFrom strHash l i rest acc σ
      = (Ok (sumInOrder acc rest), <[l := p']> σ)
      ∧ (∀ j coins, rest !! j = Some coins →
                    PatchDB.coinsAt p' strHash (i + j) = Some coins)
      ∧ (∀ n, (n < i ∨ i + length rest ≤ n)%nat →
              PatchDB.coinsAt p' strHash n = PatchDB.coinsAt p strHash n)
      ∧ (∀ h, h ≠ strHash → PatchDB.getUtxo p' h = PatchDB.getUtxo p h).
Proof.
  induction rest as [|coins rest IH]; intros i acc σ p Hp Hfree; simpl.
  - exists p. unfold ret. rewrite insert_id by done. split; [done|].
    split; [|done]. intros j c Hj. by rewrite lookup_nil in Hj.
  - destruct (createCoins_effect p strHash i coins) as (p1 & Hcreate & Hat & Hother & Hrest).
    { rewrite <- (Nat.add_0_r i). apply Hfree. simpl. lia. }
    unfold bind at 1. unfold callPatch at 1. rewrite Hp, Hcreate.
    destruct (IH (S i) (acc + getAmount coins)%float (<[l := p1]> σ) p1) as (p' & Hrun & Hnew & Hold & Hrest').
    { apply lookup_insert_eq. }
    { intros j Hj. rewrite Hother by lia.
      replace (S i + j)%nat with (i + S j)%nat by lia. apply Hfree. simpl. lia. }
    exists p'. rewrite Hrun, insert_insert_eq. split; [done|]. split; [|split].
    + intros [|j] c Hj; simpl in Hj.
      * injection Hj as <-. rewrite Nat.add_0_r, Hold by lia. exact Hat.
      * replace (i + S j)%nat with (S i + j)%nat by lia. by apply Hnew.
    + intros n Hn. simpl in Hn. rewrite Hold by lia. apply Hother. lia.
    + intros h Hh. by rewrite Hrest', Hrest.
Qed.

(** C5. On a patch that has no live output of the transaction at the
    positions of its outputs, [processPayments] creates the coins of every
    output at [(tx.hash(), index)], in the order of the outputs, and
    returns the sum of their amounts: the Number that [totalSent] holds
    after [totalSent += amount] ran for each output in order, starting from
    0, every addition being the binary64 addition of Numbers (so the exact
    integer sum as long as that stays within 2^53, and its rounding
    beyond).  For a transaction without inputs [processTxInputs] returns
    the working patch and a total of zero without touching it, and the
    payments that follow leave a UTXO under [tx.hash()] that is not empty
    when some output has a positive amount. *)
Theorem processPayments_creates_outputs_and_sums tx l σ p :
  σ !! l = Some p →
  (∀ i, (i < length (getOutCoins tx))%nat → PatchDB.coinsAt p (hash tx) i = None) →
  ∃ p',
    Application.processPayments tx l σ
    = (Ok (sumInOrder 0%float (getOutCoins tx)), <[l := p']> σ)
    ∧ (∀ i coins, getOutCoins tx !! i = Some coins →
                  PatchDB.coinsAt p' (hash tx) i = Some coins)
    ∧ (∀ i, (length (getOutCoins tx) ≤ i)%nat →
            PatchDB.coinsAt p' (hash tx) i = PatchDB.coinsAt p (hash tx) i)
    ∧ (∀ h, h ≠ hash tx → PatchDB.getUtxo p' h = PatchDB.getUtxo p h)
    ∧ (inputs tx = [] →
       ∀ mapUtxos patchForBlock σ0,
         processTxInputs tx mapUtxos patchForBlock σ0
         = (Ok ((workingPatch patchForBlock σ0).1, 0%float),
            (workingPatch patchForBlock σ0).2))
    ∧ ((∃ coins, coins ∈ getOutCoins tx ∧ (0 <? getAmount coins)%float = true) →
       ∃ u, PatchDB.getUtxo p' (hash tx) = Some u ∧ UTXO.isEmpty u = false).
Proof.
  intros Hp Hfree. unfold Application.processPayments.
  destruct (processPaymentsFrom_ok (hash tx) l (getOutCoins tx) 0 0%float σ p Hp Hfree)
    as (p' & Hrun & Hnew & Hold & Hrest).
  exists p'. split; [exact Hrun|]. split; [exact Hnew|].
  split; [intros i Hi; apply Hold; lia|]. split; [exact Hrest|]. split.
  - intros Hnone mapUtxos patchForBlock σ0.
    rewrite processTxInputs_unfold, Hnone. reflexivity.
  - intros (coins & Hin & _).
    apply list_elem_of_lookup in Hin as [i Hi].
    specialize (Hnew i coins Hi). simpl in Hnew.
    unfold PatchDB.coinsAt in Hnew.
    destruct (PatchDB.getUtxo p' (hash tx)) as [u|]; [|done].
    exists u. split; [done|]. unfold UTXO.isEmpty.
    apply bool_decide_eq_false. intros Hempty.
    by rewrite Hempty, lookup_empty in Hnew.
Qed.

End InputFacts.

(** ** app.js: createContract and runContract *)

Lemma mapResult_Ok {A B : Type} (f : A → Result B) (l : list A) (ys : list B) :
  mapResult f l = Ok ys ↔ Forall2 (λ x y, f x = Ok y) l ys.
Proof.
  revert ys. induction l as [|x l IH]; intros ys; simpl.
  - split; [intros [= <-]; constructor|]. by inversion 1.
  - destruct (f x) as [y|e] eqn:Hx.
    + destruct (mapResult f l) as [ys'|e] eqn:Hl.
      * split.
        -- intros [= <-]. constructor; [done|]. by apply IH.
        -- inversion 1 as [|? y' ? ys'' Hy Hrest]; subst.
           apply IH in Hrest. congruence.
      * split; [done|]. inversion 1 as [|? y' ? ys'' Hy Hrest]; subst.
        apply IH in Hrest. done.
    + split; [done|]. inversion 1; congruence.
Qed.

Section ContractFacts.
Variable TIMEOUT_CODE : nat.
Variable Crypto : CryptoFacade.
Variable vm_run : nat → string → Result (option Instance).
Variable strPredefinedClassesCode : string.

(** What [createContract] does: it either throws and leaves the store as
    it was, or stores the contract under the address derived from the hash
    of the transaction, adds no receipt, and returns the number zero. *)
Lemma createContract_inv tx l σ :
  match Application.createContract TIMEOUT_CODE Crypto vm_run
          strPredefinedClassesCode tx l σ with
  | (Throw _, σ') => σ' = σ
  | (Ok v, σ') =>
      v = 0
      ∧ ∃ p retVal arrCode strCodeExportedFunctions,
          σ !! l = Some p
          ∧ vm_run TIMEOUT_CODE (strPredefinedClassesCode ++ getCode tx)
            = Ok (Some retVal)
          ∧ Forall2 (λ strFuncName funcCode,
                       memberSource retVal strFuncName = Some funcCode)
              (export retVal) arrCode
          ∧ reduceConcat arrCode = Ok strCodeExportedFunctions
          ∧ σ' = <[l := (PatchDB.setContract p (getAddress Crypto (hash tx))
                          (ownProperties retVal) strCodeExportedFunctions).2]> σ
  end.
Proof.
  unfold Application.createContract. unfold_M.
  destruct (vm_run _ _) as [[retVal|]|e] eqn:Hrun; [|done|done].
  destruct (mapResult _ (export retVal)) as [arrCode|e] eqn:Hmap; [|done].
  destruct (reduceConcat arrCode) as [strCodeExportedFunctions|e] eqn:Hred; [|done].
  destruct (σ !! l) as [p|] eqn:Hp; [|done]. simpl.
  split; [done|]. exists p, retVal, arrCode, strCodeExportedFunctions.
  repeat (split; [done|]). split; [|done].
  clear Hred. revert arrCode Hmap.
  induction (export retVal) as [|name names IH]; intros arrCode; simpl.
  - intros [= <-]. constructor.
  - destruct (memberSource retVal name) as [src|] eqn:Hsrc; [|done].
    destruct (mapResult _ names) as [srcs|]; [|done].
    intros [= <-]. constructor; [done|]. by apply IH.
Qed.
End ContractFacts.

(** ** The scenarios, run *)

Lemma wellKeyed_empty : wellKeyed ∅.
Proof. intros h u Hlk. by rewrite lookup_empty in Hlk. Defined.

Lemma wellKeyed_genesisSnapshot : wellKeyed genesisSnapshot.
Proof.
  intros h u Hlk. unfold genesisSnapshot in Hlk.
  apply lookup_singleton_Some in Hlk as [<- <-]. reflexivity.
Defined.

Lemma processTxInputs_returns_patch_and_total_witness :
  workingPatch (Some 0%nat) oneEmptyPatch = (0%nat, oneEmptyPatch)
  ∧ oneEmptyPatch !! 0%nat = Some PatchDB.empty
  ∧ ∃ σ', Application.processTxInputs demoCrypto specTypes txThreeInputs
            genesisSnapshot (Some 0%nat) oneEmptyPatch
          = (Ok (0%nat, 300000%float), σ').
Proof.
  split; [reflexivity|]. split; [reflexivity|].
  refine (proj2 (proj2 (processTxInputs_returns_patch_and_total demoCrypto specTypes
            txThreeInputs genesisSnapshot (Some 0%nat) oneEmptyPatch 0%nat
            oneEmptyPatch PatchDB.empty eq_refl eq_refl wellKeyed_empty
            wellKeyed_genesisSnapshot))
          [coinsA; coinsA; coinsA] _ _ _).
  - apply (bool_decide_unpack _). vm_compute. exact I.
  - repeat constructor.
  - intros [|[|[|k]]] coins Hk; try (vm_compute in Hk; discriminate Hk);
      injection Hk as <-; vm_compute; reflexivity.
Defined.

Lemma claim_failed_iff_address_differs_witness :
  oneEmptyPatch !! 0%nat = Some PatchDB.empty
  ∧ Application.lookupUtxo PatchDB.empty genesisSnapshot
      (Buffer_toString_hex (txHash (spend 12))) = Some genesisUtxo
  ∧ UTXO.outputs genesisUtxo !! nTxOutput (spend 12) = Some coinsA
  ∧ claimProofs txBadClaim !! 0%nat = Some sigOther
  ∧ types_Address specTypes (getReceiverAddr coinsA) = true
  ∧ types_Signature specTypes sigOther = true
  ∧ types_Hash256bit specTypes (Buffer_from_hex (hash_at txBadClaim 0)) = true
  ∧ Application.processInput demoCrypto specTypes txBadClaim genesisSnapshot
      0%nat 0%nat (spend 12) oneEmptyPatch
    = (Throw (Error "Claim failed!"), oneEmptyPatch).
Proof.
  repeat (split; [vm_compute; reflexivity|]).
  refine (proj2 (proj1 (proj2 (claim_failed_iff_address_differs demoCrypto specTypes
            txBadClaim genesisSnapshot 0%nat 0%nat (spend 12) oneEmptyPatch
            PatchDB.empty genesisUtxo coinsA sigOther _ _ _ _ _ _ _))) _);
    try (vm_compute; reflexivity).
  vm_compute. discriminate.
Defined.

(** C3 as the spec words it does not hold: the message of the error goes on
    after the hash; and an input whose hash is in neither map does not make
    the call fail with that error when an earlier input fails first. *)
Lemma utxo_not_found_message_is_longer :
  PatchDB.getUtxo PatchDB.empty (Buffer_toString_hex unknownHash) = None
  ∧ genesisSnapshot !! Buffer_toString_hex unknownHash = None
  ∧ (Application.processTxInputs demoCrypto specTypes txUnknownUtxo
       genesisSnapshot (Some 0%nat) oneEmptyPatch).1
    ≠ Throw (Error ("UTXO not found for " ++ Buffer_toString_hex unknownHash))
  ∧ (Application.processTxInputs demoCrypto specTypes txBadClaimThenUnknownUtxo
       genesisSnapshot (Some 0%nat) oneEmptyPatch).1
    = Throw (Error "Claim failed!").
Proof.
  split; [vm_compute; reflexivity|]. split; [vm_compute; reflexivity|].
  split; [|vm_compute; reflexivity].
  vm_compute. discriminate.
Qed.

Lemma utxo_not_found_names_patch_and_snapshot_witness :
  inputs txUnknownUtxo !! 0%nat = Some {| txHash := unknownHash; nTxOutput := 0 |}
  ∧ Application.processInputsFrom demoCrypto specTypes txUnknownUtxo genesisSnapshot
      0%nat 0 (take 0 (inputs txUnknownUtxo)) 0%float oneEmptyPatch
    = (Ok 0%float, oneEmptyPatch)
  ∧ oneEmptyPatch !! 0%nat = Some PatchDB.empty
  ∧ PatchDB.getUtxo PatchDB.empty (Buffer_toString_hex unknownHash) = None
  ∧ genesisSnapshot !! Buffer_toString_hex unknownHash = None
  ∧ Application.processTxInputs demoCrypto specTypes txUnknownUtxo genesisSnapshot
      (Some 0%nat) oneEmptyPatch
    = (Throw (Error ("UTXO not found for " ++ Buffer_toString_hex unknownHash
                     ++ " neither in patch nor in mapUtxos")), oneEmptyPatch).
Proof.
  repeat (split; [vm_compute; reflexivity|]).
  refine (proj1 (utxo_not_found_names_patch_and_snapshot demoCrypto specTypes
            txUnknownUtxo genesisSnapshot (Some 0%nat) oneEmptyPatch 0%nat
            {| txHash := unknownHash; nTxOutput := 0 |} 0%float oneEmptyPatch
            PatchDB.empty _ _ _) _ _);
    vm_compute; reflexivity.
Defined.

Lemma processTxInputs_throw_keeps_earlier_spends_witness :
  oneEmptyPatch !! 0%nat = Some PatchDB.empty
  ∧ Application.processTxInputs demoCrypto specTypes txSameInputTwice
      genesisSnapshot (Some 0%nat) oneEmptyPatch
    = (Throw (Error ("Output #12 of Tx " ++ strUtxoHash ++ " already spent!")),
       <[0%nat := spendInputs (hash txSameInputTwice) genesisSnapshot [spend 12]
                    PatchDB.empty]> oneEmptyPatch)
  ∧ ∃ k input,
      inputs txSameInputTwice !! k = Some input
      ∧ <[0%nat := spendInputs (hash txSameInputTwice) genesisSnapshot [spend 12]
                     PatchDB.empty]> oneEmptyPatch
        = <[0%nat := spendInputs (hash txSameInputTwice) genesisSnapshot
                       (take k (inputs txSameInputTwice)) PatchDB.empty]> oneEmptyPatch.
Proof.
  split; [reflexivity|].
  assert (Hrun :
    Application.processTxInputs demoCrypto specTypes txSameInputTwice
      genesisSnapshot (Some 0%nat) oneEmptyPatch
    = (Throw (Error ("Output #12 of Tx " ++ strUtxoHash ++ " already spent!")),
       <[0%nat := spendInputs (hash txSameInputTwice) genesisSnapshot [spend 12]
                    PatchDB.empty]> oneEmptyPatch)).
  { vm_compute. reflexivity. }
  split; [exact Hrun|].
  destruct (processTxInputs_throw_keeps_earlier_spends demoCrypto specTypes
              txSameInputTwice genesisSnapshot 0%nat oneEmptyPatch PatchDB.empty
              _ _ eq_refl Hrun) as (k & input & Hk & Hstore & _).
  exists k, input. split; [exact Hk | exact Hstore].
Defined.

Lemma processPayments_creates_outputs_and_sums_witness :
  oneEmptyPatch !! 0%nat = Some PatchDB.empty
  ∧ (∀ i, (i < length (getOutCoins txIssue))%nat →
          PatchDB.coinsAt PatchDB.empty (hash txIssue) i = None)
  ∧ ∃ p',
      Application.processPayments txIssue 0%nat oneEmptyPatch
      = (Ok 100000%float, <[0%nat := p']> oneEmptyPatch)
      ∧ PatchDB.coinsAt p' (hash txIssue) 0 = Some coinsA
      ∧ ∃ u, PatchDB.getUtxo p' (hash txIssue) = Some u ∧ UTXO.isEmpty u = false.
Proof.
  split; [reflexivity|].
  assert (Hfree : ∀ i, (i < length (getOutCoins txIssue))%nat →
                       PatchDB.coinsAt PatchDB.empty (hash txIssue) i = None).
  { intros i _. reflexivity. }
  split; [exact Hfree|].
  destruct (processPayments_creates_outputs_and_sums demoCrypto specTypes txIssue
              0%nat oneEmptyPatch PatchDB.empty eq_refl Hfree)
    as (p' & Hrun & Hnew & _ & _ & _ & Hlive).
  exists p'. split; [exact Hrun|]. split; [exact (Hnew 0%nat coinsA eq_refl)|].
  apply Hlive. exists coinsA. split; [by left|]. vm_compute. reflexivity.
Defined.

(** ** createContract and runContract against the test suite *)

Lemma string_length_app (a b : string) :
  String.length (a ++ b) = (String.length a + String.length b)%nat.
Proof. induction a as [|c a IH]; simpl; [done|by rewrite IH]. Qed.

Lemma joined_length (separator : string) (rest : list string) (first : string) :
  String.length
    (fold_left (λ joined funcCode, joined ++ separator ++ funcCode) rest first)
  = (String.length first + sum_list (String.length <$> rest)
     + length rest * String.length separator)%nat.
Proof.
  revert first. induction rest as [|funcCode rest IH]; intros first; simpl.
  - lia.
  - rewrite IH, !string_length_app.
    change (list_fmap string nat String.length rest) with (String.length <$> rest).
    lia.
Qed.

Lemma joinWith_is_concat_iff (separator : string) (arr : list string) :
  (2 ≤ length arr)%nat →
  joinWith "" arr = joinWith separator arr ↔ separator = "".
Proof.
  intros Hlen. split; [|by intros ->].
  destruct arr as [|first [|second rest]]; simpl in Hlen; [lia|lia|].
  unfold joinWith. intros Heq. apply (f_equal String.length) in Heq.
  rewrite !joined_length in Heq.
  destruct separator; [done|]. simpl in Heq. lia.
Qed.

Section DeployFacts.
Variable TIMEOUT_CODE : nat.
Variable Crypto : CryptoFacade.
Variable vm_run : nat → string → Result (option Instance).
Variable strPredefinedClassesCode : string.

(** The run of [createContract] when the sandbox hands back an instance
    whose exported names all are members, and there is at least one. *)
Lemma createContract_deploys tx l σ p retVal arrCode :
  σ !! l = Some p →
  vm_run TIMEOUT_CODE (strPredefinedClassesCode ++ getCode tx) = Ok (Some retVal) →
  Forall2 (λ strFuncName funcCode, memberSource retVal strFuncName = Some funcCode)
    (export retVal) arrCode →
  arrCode ≠ [] →
  Application.createContract TIMEOUT_CODE Crypto vm_run strPredefinedClassesCode tx l σ
  = (Ok 0,
     <[l := (PatchDB.setContract p (getAddress Crypto (hash tx)) (ownProperties retVal)
               (joinWith "" arrCode)).2]> σ).
Proof.
  intros Hp Hrun Hall Hne.
  unfold Application.createContract. unfold_M. rewrite Hrun.
  assert (Hmap :
    mapResult
      (λ strFuncName,
         match memberSource retVal strFuncName with
         | Some funcCode => Ok funcCode
         | None => Throw (JsTypeError "Cannot read properties of undefined (reading 'toString')")
         end) (export retVal) = Ok arrCode).
  { apply mapResult_Ok. eapply Forall2_impl; [exact Hall|].
    intros name src Hsrc. simpl in Hsrc. by rewrite Hsrc. }
  rewrite Hmap. destruct arrCode as [|first rest]; [done|].
  simpl. rewrite Hp. simpl. reflexivity.
Qed.

(** C6, as the code has it.  For every deployment that succeeds with two
    or more exported methods (the sandbox handed back an instance, and
    every name that its [export()] lists is a member), [createContract]
    returns and the data stored are the own properties of the instance,
    but the code stored is the sources of the exported methods put one
    after the other in the order of [export()]: it is their join by a
    separator only when the separator is the empty string. *)
Theorem createContract_stores_sources_without_separator tx l σ p retVal arrCode :
  σ !! l = Some p →
  vm_run TIMEOUT_CODE (strPredefinedClassesCode ++ getCode tx) = Ok (Some retVal) →
  Forall2 (λ strFuncName funcCode, memberSource retVal strFuncName = Some funcCode)
    (export retVal) arrCode →
  (2 ≤ length arrCode)%nat →
  let out := Application.createContract TIMEOUT_CODE Crypto vm_run
               strPredefinedClassesCode tx l σ in
  let stored := out.2 !! l ≫= λ p',
                PatchDB.contract_map p' !! getAddress Crypto (hash tx) in
  out.1 = Ok 0
  ∧ getData <$> stored = Some (ownProperties retVal)
  ∧ getContractCode <$> stored = Some (joinWith "" arrCode)
  ∧ ∀ separator : string,
      getContractCode <$> stored = Some (joinWith separator arrCode)
      ↔ separator = "".
Proof.
  intros Hp Hrun Hall Hlen out stored.
  assert (Hne : arrCode ≠ []) by (intros ->; simpl in Hlen; lia).
  assert (Hstored :
    stored = Some {| getStoredAddress := getAddress Crypto (hash tx);
                     getData := ownProperties retVal;
                     getContractCode := joinWith "" arrCode |}).
  { unfold stored, out.
    rewrite (createContract_deploys tx l σ p retVal arrCode Hp Hrun Hall Hne).
    simpl. rewrite lookup_insert_eq. simpl. by rewrite lookup_insert_eq. }
  assert (Hcode : getContractCode <$> stored = Some (joinWith "" arrCode))
    by (by rewrite Hstored).
  split; [|split; [|split]].
  - unfold out.
    by rewrite (createContract_deploys tx l σ p retVal arrCode Hp Hrun Hall Hne).
  - by rewrite Hstored.
  - exact Hcode.
  - intros separator. rewrite Hcode. split.
    + intros [= Heq]. by apply (joinWith_is_concat_iff separator arrCode Hlen).
    + by intros ->.
Qed.
End DeployFacts.

(** The deployment of [txDeployTwoMethods]: the patch then holds the two
    sources with nothing in between. *)
Lemma createContract_stores_sources_without_separator_witness :
  oneEmptyPatch !! 0%nat = Some PatchDB.empty
  ∧ vmOfTwoMethods 10%nat (strBaseClassCode ++ getCode txDeployTwoMethods)
    = Ok (Some twoMethodsInstance)
  ∧ let out := Application.createContract 10%nat demoCrypto vmOfTwoMethods
                 strBaseClassCode txDeployTwoMethods 0%nat oneEmptyPatch in
    let stored := out.2 !! 0%nat ≫= λ p',
                  PatchDB.contract_map p' !! getAddress demoCrypto
                                               (hash txDeployTwoMethods) in
    out.1 = Ok 0
    ∧ getData <$> stored = Some [("_data", JsNum 10)]
    ∧ getContractCode <$> stored
      = Some "getData(){ return this._data; }getAnother(){ return this._data; }"
    ∧ ∀ separator : string,
        getContractCode <$> stored
        = Some (joinWith separator [strGetDataCode; strFunc2Code])
        ↔ separator = "".
Proof.
  split; [reflexivity|].
  assert (Hrun : vmOfTwoMethods 10%nat (strBaseClassCode ++ getCode txDeployTwoMethods)
                 = Ok (Some twoMethodsInstance)) by (vm_compute; reflexivity).
  split; [exact Hrun|].
  refine (createContract_stores_sources_without_separator 10%nat demoCrypto
            vmOfTwoMethods strBaseClassCode txDeployTwoMethods 0%nat oneEmptyPatch
            PatchDB.empty twoMethodsInstance [strGetDataCode; strFunc2Code]
            eq_refl Hrun _ (le_n 2)).
  repeat constructor.
Defined.

(** C7, on the deployment [txDeploy].  [createContract] returns the number zero,
    not a receipt and a contract, and puts no receipt into the patch; the
    contract is stored under the address derived from the hash of the
    transaction.  When the sandbox fails, the call throws what the sandbox
    threw and the store is as before: no receipt with status FAILED
    exists. *)
Theorem createContract_returns_zero_and_no_receipt :
  let out := Application.createContract 10%nat demoCrypto vmOfTest ""
               txDeploy 0%nat oneEmptyPatch in
  out.1 = Ok 0
  ∧ PatchDB.receipt_map <$> out.2 !! 0%nat = Some ∅
  ∧ (getStoredAddress <$>
       (out.2 !! 0%nat ≫= λ p,
        PatchDB.contract_map p !! getAddress demoCrypto (hash txDeploy)))
    = Some (getAddress demoCrypto (hash txDeploy))
  ∧ Application.createContract 10%nat demoCrypto vmTimingOut "" txDeploy
      0%nat oneEmptyPatch
    = (Throw (Error "Script execution timed out."), oneEmptyPatch).
Proof. repeat split; vm_compute; reflexivity. Qed.

(** C8, as the code has it.  [runContract] does nothing: whatever the
    invocation, it returns [undefined], no receipt, and the store is as
    before. *)
Theorem runContract_returns_undefined :
  ∀ strCodeToRun contractCode patch funcToLoadNestedContracts σ,
    Application.runContract strCodeToRun contractCode patch
      funcToLoadNestedContracts σ = (Ok tt, σ).
Proof. reflexivity. Qed.

(** * Further properties *)

(** ** utils.js: arrays, sets and maps *)

Section FilterFacts.
Context {A : Type}.

Lemma filter_all' (P : A → Prop) `{!∀ x, Decision (P x)} (l : list A) :
  Forall P l → filter P l = l.
Proof.
  induction 1 as [|x l HP _ IH]; [done|].
  rewrite filter_cons, decide_True by done. by rewrite IH.
Qed.

Lemma filter_none (P : A → Prop) `{!∀ x, Decision (P x)} (l : list A) :
  Forall (λ x, ¬ P x) l → filter P l = [].
Proof.
  induction 1 as [|x l HP _ IH]; [done|].
  by rewrite filter_cons, decide_False.
Qed.

Lemma filter_ext_in' (P Q : A → Prop) `{!∀ x, Decision (P x), !∀ x, Decision (Q x)}
    (l : list A) :
  (∀ x, x ∈ l → (P x ↔ Q x)) → filter P l = filter Q l.
Proof.
  induction l as [|x l IH]; intros Hiff; [done|].
  rewrite !filter_cons.
  rewrite IH by (intros y Hy; apply Hiff; by right).
  pose proof (Hiff x (list_elem_of_here _ _)) as Hx.
  destruct (decide (P x)), (decide (Q x)); tauto || done.
Qed.

Lemma elem_of_concat (x : A) (ls : list (list A)) :
  x ∈ concat ls ↔ ∃ l, l ∈ ls ∧ x ∈ l.
Proof.
  induction ls as [|l ls IH]; simpl.
  - split; [by intros ?%elem_of_nil|]. by intros (l & ?%elem_of_nil & _).
  - rewrite elem_of_app, IH. split.
    + intros [Hx|(k & Hk & Hx)]; [exists l|exists k]; split; try done;
        [by left|by right].
    + intros (k & Hk & Hx). apply elem_of_cons in Hk as [->|Hk]; [by left|].
      right. by exists k.
Qed.
End FilterFacts.

Section MoreArrayFacts.
Context {A : Type} `{Countable A}.

Lemma arrayEquals_iff (a b : list A) :
  utils.arrayEquals a b = true ↔ length a = length b ∧ ∀ e, e ∈ b → e ∈ a.
Proof.
  unfold utils.arrayEquals.
  rewrite andb_true_iff, !bool_decide_eq_true. split.
  - intros [Hlen Hcap]. split; [exact Hlen|].
    apply arrayIntersection_full. congruence.
  - intros [Hlen Hin]. split; [exact Hlen|].
    apply arrayIntersection_full in Hin. congruence.
Qed.

(** X1. The intersection holds exactly the elements of both arrays; it is a
    subsequence of the second array, so it has the order and the
    multiplicities of the second array, and an array intersected with
    itself is the array. *)
Theorem arrayIntersection_elements_and_order (a b : list A) :
  (∀ x, x ∈ utils.arrayIntersection a b ↔ x ∈ a ∧ x ∈ b)
  ∧ utils.arrayIntersection a b `sublist_of` b
  ∧ utils.arrayIntersection a a = a
  ∧ utils.arrayIntersection [] b = []
  ∧ utils.arrayIntersection a [] = [].
Proof.
  unfold utils.arrayIntersection. split; [|split; [|split; [|split]]].
  - intros x. rewrite list_elem_of_filter, elem_of_list_to_set. tauto.
  - apply sublist_filter.
  - apply filter_all', Forall_forall. intros x Hx. by apply elem_of_list_to_set.
  - induction b as [|x b IH]; [done|].
    rewrite filter_cons, decide_False; [exact IH|]. simpl. set_solver.
  - reflexivity.
Qed.

(** X2. Arrays that are rearrangements of each other are equal for
    [arrayEquals]; and when the second array has no repeated element,
    [arrayEquals] holds only for rearrangements. *)
Theorem arrayEquals_permutation (a b : list A) :
  (a ≡ₚ b → utils.arrayEquals a b = true)
  ∧ (NoDup b → utils.arrayEquals a b = true → a ≡ₚ b).
Proof.
  pose proof (arrayEquals_iff a b) as Hiff.
  split.
  - intros Hperm. apply Hiff. split; [by rewrite Hperm|].
    intros e He. by rewrite Hperm.
  - intros Hnodup Heq. apply Hiff in Heq as [Hlen Hin].
    symmetry. apply submseteq_length_Permutation; [|lia].
    by apply NoDup_submseteq.
Qed.
End MoreArrayFacts.

(** X3. [arrayEquals] is reflexive and transitive, but it is not
    symmetric: [[1, 2]] equals [[1, 1]] for it and [[1, 1]] does not equal
    [[1, 2]]. *)
Theorem arrayEquals_preorder_not_symmetric :
  (∀ a : list nat, utils.arrayEquals a a = true)
  ∧ (∀ a b c : list nat,
       utils.arrayEquals a b = true → utils.arrayEquals b c = true →
       utils.arrayEquals a c = true)
  ∧ (∃ a b : list nat,
       utils.arrayEquals a b = true ∧ utils.arrayEquals b a = false).
Proof.
  split; [|split].
  - intros a. by apply arrayEquals_iff.
  - intros a b c Hab Hbc.
    apply arrayEquals_iff in Hab as [Hlab Hab], Hbc as [Hlbc Hbc].
    apply arrayEquals_iff. split; [congruence|]. auto.
  - exists [1; 2]%nat, [1; 1]%nat. split; vm_compute; reflexivity.
Qed.

Lemma arrayEquals_preorder_not_symmetric_witness :
  utils.arrayEquals [1; 2; 3]%nat [3; 1; 2]%nat = true
  ∧ utils.arrayEquals [3; 1; 2]%nat [2; 3; 1]%nat = true
  ∧ utils.arrayEquals [1; 2; 3]%nat [2; 3; 1]%nat = true.
Proof.
  split; [vm_compute; reflexivity|]. split; [vm_compute; reflexivity|].
  apply (proj1 (proj2 arrayEquals_preorder_not_symmetric)
           [1; 2; 3]%nat [3; 1; 2]%nat [2; 3; 1]%nat);
    vm_compute; reflexivity.
Defined.

Lemma arrayEquals_permutation_witness :
  NoDup [3; 1; 2]%nat
  ∧ utils.arrayEquals [1; 2; 3]%nat [3; 1; 2]%nat = true
  ∧ [1; 2; 3]%nat ≡ₚ [3; 1; 2]%nat.
Proof.
  assert (Hnodup : NoDup [3; 1; 2]%nat).
  { apply (bool_decide_unpack _). vm_compute. exact I. }
  assert (Heq : utils.arrayEquals [1; 2; 3]%nat [3; 1; 2]%nat = true).
  { vm_compute. reflexivity. }
  split; [exact Hnodup|]. split; [exact Heq|].
  exact (proj2 (arrayEquals_permutation [1; 2; 3]%nat [3; 1; 2]%nat) Hnodup Heq).
Defined.

Section CollectionFacts.
Context {A : Type} `{EqDecision A}.

Lemma Set_add_elem (s : list A) (x y : A) :
  y ∈ Set_add s x ↔ y ∈ s ∨ y = x.
Proof.
  unfold Set_add. case_decide as Hin.
  - split; [by left|]. intros [?| ->]; done.
  - rewrite elem_of_app, list_elem_of_singleton. tauto.
Qed.

Lemma Set_add_NoDup (s : list A) (x : A) : NoDup s → NoDup (Set_add s x).
Proof.
  intros Hs. unfold Set_add. case_decide as Hin; [done|].
  apply NoDup_app. split; [done|]. split; [|apply NoDup_singleton].
  intros y Hy Hyx. apply list_elem_of_singleton in Hyx as ->. done.
Qed.

Lemma Set_fold_elem (l s : list A) (y : A) :
  y ∈ fold_left Set_add l s ↔ y ∈ s ∨ y ∈ l.
Proof.
  revert s. induction l as [|x l IH]; intros s; simpl.
  - rewrite elem_of_nil. tauto.
  - rewrite IH, Set_add_elem, elem_of_cons. tauto.
Qed.

Lemma Set_fold_NoDup (l s : list A) : NoDup s → NoDup (fold_left Set_add l s).
Proof.
  revert s. induction l as [|x l IH]; intros s Hs; simpl; [done|].
  by apply IH, Set_add_NoDup.
Qed.

(** Adding the elements of a duplicate-free list appends those that are
    new, in their order. *)
Lemma Set_fold_NoDup_list (l s : list A) :
  NoDup l → fold_left Set_add l s = (s ++ filter (λ x, x ∉ s) l)%list.
Proof.
  revert s. induction l as [|x l IH]; intros s Hl; simpl.
  - by rewrite filter_nil, app_nil_r.
  - apply NoDup_cons in Hl as [Hx Hl]. rewrite IH by done.
    rewrite filter_cons. unfold Set_add.
    destruct (decide (x ∈ s)) as [Hin|Hnin].
    + by rewrite decide_False by tauto.
    + rewrite decide_True by done. rewrite <- app_assoc. simpl. do 2 f_equal.
      apply filter_ext_in'. intros y Hy.
      rewrite elem_of_app, list_elem_of_singleton.
      split; [tauto|]. intros Hys [?| ->]; done.
Qed.

(** X4. [mergeSets] is the union: it has no repeated element and holds
    exactly the elements of the two sets. *)
Theorem mergeSets_is_union (set1 set2 : list A) :
  NoDup (mergeSets set1 set2)
  ∧ ∀ x, x ∈ mergeSets set1 set2 ↔ x ∈ set1 ∨ x ∈ set2.
Proof.
  unfold mergeSets, Set_new. split.
  - apply Set_fold_NoDup. constructor.
  - intros x. rewrite Set_fold_elem, elem_of_app, elem_of_nil. tauto.
Qed.

(** X5. The merged set iterates the first set in its order and then the
    elements of the second set that the first one does not have, in their
    order; merging a set with itself gives the set. *)
Theorem mergeSets_keeps_insertion_order (set1 set2 : list A) :
  NoDup set1 → NoDup set2 →
  mergeSets set1 set2 = (set1 ++ filter (λ x, x ∉ set1) set2)%list
  ∧ mergeSets set1 set1 = set1
  ∧ ((∀ x, x ∈ set1 → x ∉ set2) →
     length (mergeSets set1 set2) = (length set1 + length set2)%nat).
Proof.
  intros H1 H2.
  assert (Hgen : ∀ s, NoDup s →
            mergeSets set1 s = (set1 ++ filter (λ x, x ∉ set1) s)%list).
  { intros s Hs. unfold mergeSets, Set_new. rewrite fold_left_app.
    rewrite (Set_fold_NoDup_list set1 []) by done. simpl.
    rewrite (filter_all' (λ x, x ∉ [])).
    - by apply Set_fold_NoDup_list.
    - apply Forall_forall. intros x _. apply not_elem_of_nil. }
  split; [by apply Hgen|]. split.
  - rewrite Hgen by done.
    rewrite (filter_none (λ x, x ∉ set1)); [by rewrite app_nil_r|].
    apply Forall_forall. intros x Hx Hnx. done.
  - intros Hdisj. rewrite Hgen by done. rewrite length_app. f_equal.
    rewrite (filter_all' (λ x, x ∉ set1)); [done|].
    apply Forall_forall. intros x Hx Hx1. by apply (Hdisj x).
Qed.
End CollectionFacts.

Lemma mergeSets_keeps_insertion_order_witness :
  NoDup [1; 2; 3]%nat ∧ NoDup [3; 4; 1; 5]%nat
  ∧ mergeSets [1; 2; 3]%nat [3; 4; 1; 5]%nat = [1; 2; 3; 4; 5]%nat.
Proof.
  assert (H1 : NoDup [1; 2; 3]%nat)
    by (apply (bool_decide_unpack _); vm_compute; exact I).
  assert (H2 : NoDup [3; 4; 1; 5]%nat)
    by (apply (bool_decide_unpack _); vm_compute; exact I).
  split; [exact H1|]. split; [exact H2|].
  exact (proj1 (mergeSets_keeps_insertion_order [1; 2; 3]%nat [3; 4; 1; 5]%nat H1 H2)).
Defined.

Section MapKeyFacts.
Context {A : Type} `{EqDecision A} {V : Type}.

Lemma getMapsKeys_fold (arrMaps : list (list (A * V))) (acc : list A) :
  fold_left (λ arrResultKeys m, (arrResultKeys ++ Map_keys m)%list) arrMaps acc
  = (acc ++ concat (Map_keys <$> arrMaps))%list.
Proof.
  revert acc. induction arrMaps as [|m arrMaps IH]; intros acc; simpl.
  - by rewrite app_nil_r.
  - by rewrite IH, app_assoc.
Qed.

(** X6. [getMapsKeys] lists the keys of the maps, map after map and each
    map in its own order, and keeps a key once for every map that has it:
    there are as many keys as entries in all the maps. *)
Theorem getMapsKeys_all_keys_in_order (arrMaps : list (list (A * V))) :
  getMapsKeys arrMaps = concat (Map_keys <$> arrMaps)
  ∧ length (getMapsKeys arrMaps) = sum_list (length <$> arrMaps)
  ∧ ∀ k, k ∈ getMapsKeys arrMaps ↔ ∃ m, m ∈ arrMaps ∧ k ∈ Map_keys m.
Proof.
  assert (Heq : getMapsKeys arrMaps = concat (Map_keys <$> arrMaps)).
  { unfold getMapsKeys. by rewrite getMapsKeys_fold. }
  split; [exact Heq|]. rewrite Heq. split.
  - clear Heq. induction arrMaps as [|m arrMaps IH]; [done|].
    rewrite !fmap_cons. cbn [concat sum_list sum_list_with].
    rewrite length_app. unfold Map_keys at 1. rewrite length_fmap.
    f_equal. exact IH.
  - intros k. rewrite elem_of_concat. split.
    + intros (keys & Hkeys & Hk).
      apply list_elem_of_fmap in Hkeys as (m & -> & Hm). by exists m.
    + intros (m & Hm & Hk). exists (Map_keys m). split; [|done].
      apply list_elem_of_fmap. by exists m.
Qed.

(** X7. [getMapsKeysUnique] holds every key of the maps exactly once; when
    no two of the maps share a key it is [getMapsKeys]. *)
Theorem getMapsKeysUnique_each_key_once (arrMaps : list (list (A * V))) :
  NoDup (getMapsKeysUnique arrMaps)
  ∧ (∀ k, k ∈ getMapsKeysUnique arrMaps ↔ k ∈ getMapsKeys arrMaps)
  ∧ (NoDup (getMapsKeys arrMaps) →
     getMapsKeysUnique arrMaps = getMapsKeys arrMaps).
Proof.
  unfold getMapsKeysUnique, Set_new. split; [|split].
  - apply Set_fold_NoDup. constructor.
  - intros k. rewrite Set_fold_elem, elem_of_nil. tauto.
  - intros Hnodup. rewrite Set_fold_NoDup_list by done. simpl.
    apply filter_all', Forall_forall. intros x _. apply not_elem_of_nil.
Qed.
End MapKeyFacts.

Lemma getMapsKeysUnique_each_key_once_witness :
  NoDup (getMapsKeys [[(1%nat, "a"); (2%nat, "b")]; [(3%nat, "c")]])
  ∧ getMapsKeysUnique [[(1%nat, "a"); (2%nat, "b")]; [(3%nat, "c")]]
    = [1; 2; 3]%nat.
Proof.
  assert (Hnodup : NoDup (getMapsKeys [[(1%nat, "a"); (2%nat, "b")]; [(3%nat, "c")]]))
    by (apply (bool_decide_unpack _); vm_compute; exact I).
  split; [exact Hnodup|].
  exact (proj2 (proj2 (getMapsKeysUnique_each_key_once
                         [[(1%nat, "a"); (2%nat, "b")]; [(3%nat, "c")]])) Hnodup).
Defined.

(** ** utils.js: pick and stripAddressPrefix *)

Section PickFacts.
Context {V : Type}.


End PickFacts.

Lemma substring_from_0_2 (s : string) :
  String.substring 0 2 s ++ String_from 2 s = s.
Proof. destruct s as [|a [|b [|c s]]]; reflexivity. Qed.

Lemma substring_0_2_length (s : string) :
  (String.length (String.substring 0 2 s) ≤ 2)%nat
  ∧ ((String.length s < 2)%nat → String.substring 0 2 s = s).
Proof.
  destruct s as [|a [|b s]]; simpl; split; try lia; try done.
  destruct s; simpl; lia.
Qed.

(** X9. For a prefix of two characters, [stripAddressPrefix] removes the
    prefix from an address that starts with it, and whenever it returns
    something else than its argument, the argument is the prefix followed
    by what it returns. *)
Theorem stripAddressPrefix_removes_two_char_prefix (ADDRESS_PREFIX : string) :
  String.length ADDRESS_PREFIX = 2%nat →
  (∀ strAddr, stripAddressPrefix ADDRESS_PREFIX (ADDRESS_PREFIX ++ strAddr) = strAddr)
  ∧ (∀ strAddr,
       stripAddressPrefix ADDRESS_PREFIX strAddr ≠ strAddr →
       strAddr = ADDRESS_PREFIX ++ stripAddressPrefix ADDRESS_PREFIX strAddr).
Proof.
  intros Hlen. split.
  - intros strAddr. unfold stripAddressPrefix. rewrite Hlen.
    destruct ADDRESS_PREFIX as [|a [|b [|c p]]]; try done.
    destruct strAddr; simpl; by rewrite !Ascii.eqb_refl.
  - intros strAddr. unfold stripAddressPrefix. rewrite Hlen.
    destruct (String.eqb _ _) eqn:Heq; [|done].
    apply String.eqb_eq in Heq. intros _.
    rewrite <- Heq. symmetry. apply substring_from_0_2.
Qed.

Lemma stripAddressPrefix_removes_two_char_prefix_witness :
  String.length "Ux" = 2%nat
  ∧ stripAddressPrefix "Ux" "Ux6e2a3a4b" = "6e2a3a4b".
Proof.
  split; [reflexivity|].
  exact (proj1 (stripAddressPrefix_removes_two_char_prefix "Ux" eq_refl) "6e2a3a4b").
Defined.

(** X10. The comparison looks at two characters whatever the prefix is: a
    prefix of more than two characters is never removed, and a prefix of
    fewer than two characters is removed only from the address that is the
    prefix itself, which then becomes empty. *)
Theorem stripAddressPrefix_compares_two_characters (ADDRESS_PREFIX strAddr : string) :
  ((2 < String.length ADDRESS_PREFIX)%nat →
   stripAddressPrefix ADDRESS_PREFIX strAddr = strAddr)
  ∧ ((String.length ADDRESS_PREFIX < 2)%nat →
     stripAddressPrefix ADDRESS_PREFIX strAddr
     = if String.eqb strAddr ADDRESS_PREFIX then "" else strAddr).
Proof.
  unfold stripAddressPrefix.
  destruct (substring_0_2_length strAddr) as [Hle Hshort]. split.
  - intros Hlong. destruct (String.eqb _ _) eqn:Heq; [|done].
    apply String.eqb_eq in Heq. rewrite Heq in Hle. lia.
  - intros Hlt. destruct (String.eqb (String.substring 0 2 strAddr) _) eqn:Heq.
    + apply String.eqb_eq in Heq.
      assert (Hs : strAddr = ADDRESS_PREFIX).
      { rewrite <- Heq. symmetry. apply Hshort.
        destruct strAddr as [|a [|b s]]; simpl; try lia.
        rewrite <- Heq in Hlt. simpl in Hlt. destruct s; simpl in Hlt; lia. }
      subst strAddr. rewrite String.eqb_refl.
      destruct ADDRESS_PREFIX as [|a [|b p]]; simpl in *; try done; lia.
    + destruct (String.eqb strAddr ADDRESS_PREFIX) eqn:Heq'; [|done].
      apply String.eqb_eq in Heq'. subst strAddr.
      rewrite (Hshort Hlt), String.eqb_refl in Heq. done.
Qed.

Lemma stripAddressPrefix_compares_two_characters_witness :
  (2 < String.length "Uxx")%nat
  ∧ stripAddressPrefix "Uxx" "Uxx6e2a" = "Uxx6e2a"
  ∧ (String.length "U" < 2)%nat
  ∧ stripAddressPrefix "U" "U" = "".
Proof.
  assert (H3 : (2 < String.length "Uxx")%nat) by (simpl; lia).
  assert (H1 : (String.length "U" < 2)%nat) by (simpl; lia).
  split; [exact H3|]. split.
  - exact (proj1 (stripAddressPrefix_compares_two_characters "Uxx" "Uxx6e2a") H3).
  - split; [exact H1|].
    exact (proj2 (stripAddressPrefix_compares_two_characters "U" "U") H1).
Defined.

(** ** utils.js: prepareForStringifyObject *)

Section StringifyFacts.
Context {Num : Type}.
Variable Long_toNumber : Num → Num → bool → Num.

Local Abbreviation prepare := (prepareForStringifyObject Long_toNumber).

(** Induction on values, with the hypothesis for every element of an array
    and every property of an object or function. *)
Lemma Js_nested_ind (P : Js Num → Prop) :
  P JUndefined → P JNull → (∀ b, P (JBoolean b)) → (∀ n, P (JNumber n)) →
  (∀ s, P (JString s)) →
  (∀ props, Forall (λ kv, P kv.2) props → P (JFunction props)) →
  (∀ b, P (JBuffer b)) → (∀ low high unsigned, P (JLong low high unsigned)) →
  (∀ elems, Forall P elems → P (JArray elems)) →
  (∀ props, Forall (λ kv, P kv.2) props → P (JObject props)) →
  ∀ v, P v.
Proof.
  intros Hundef Hnull Hbool Hnum Hstr Hfun Hbuf Hlong Harr Hobj.
  fix IH 1. intros [| | b | n | s | props | b | low high unsigned | elems | props].
  - exact Hundef.
  - exact Hnull.
  - apply Hbool.
  - apply Hnum.
  - apply Hstr.
  - apply Hfun. induction props as [|[key value] props IHprops]; constructor;
      [apply IH | exact IHprops].
  - apply Hbuf.
  - apply Hlong.
  - apply Harr. induction elems as [|value elems IHelems]; constructor;
      [apply IH | exact IHelems].
  - apply Hobj. induction props as [|[key value] props IHprops]; constructor;
      [apply IH | exact IHprops].
Qed.

Lemma prepare_object (props : list (string * Js Num)) :
  prepare (JObject props) = JObject (prepareKeys Long_toNumber props)
  ∧ prepare (JFunction props) = JObject (prepareKeys Long_toNumber props).
Proof.
  split; simpl; f_equal;
    induction props as [|[key value] props IH]; simpl; try done;
    destruct value; by rewrite IH.
Qed.

Lemma setKey_plain (key : string) (value : Js Num) (rest : list (string * Js Num)) :
  plainProperty ("k", value) = true →
  forallb plainProperty rest = true →
  forallb plainProperty (setKey key value rest) = true.
Proof.
  intros Hvalue Hrest. unfold setKey.
  destruct (String.eqb key "__proto__") eqn:Hkey; [done|].
  simpl. rewrite Hrest, andb_true_r.
  destruct value; simpl in *; by rewrite ?Hkey.
Qed.

Lemma prepareKeys_plain (props : list (string * Js Num)) :
  Forall (λ kv, isPlain (prepare kv.2) = true) props →
  forallb plainProperty (prepareKeys Long_toNumber props) = true.
Proof.
  induction 1 as [|[key value] props Hvalue _ IH]; [done|].
  simpl in Hvalue. cbn [prepareKeys].
  destruct value; try exact IH; apply setKey_plain; done.
Qed.

Lemma prepare_is_plain (v : Js Num) : isPlain (prepare v) = true.
Proof.
  induction v as [| | b | n | s | props IH | b | low high unsigned | elems IH | props IH]
    using Js_nested_ind; try reflexivity.
  - rewrite (proj2 (prepare_object props)). by apply prepareKeys_plain.
  - simpl. apply forallb_forall. intros x Hx.
    apply in_map_iff in Hx as (y & <- & Hy).
    rewrite Forall_forall in IH. apply IH. by apply list_elem_of_In.
  - rewrite (proj1 (prepare_object props)). by apply prepareKeys_plain.
Qed.

Lemma prepareKeys_fixed (props : list (string * Js Num)) :
  Forall (λ kv, isPlain kv.2 = true → prepare kv.2 = kv.2) props →
  forallb plainProperty props = true →
  prepareKeys Long_toNumber props = props.
Proof.
  induction 1 as [|[key value] props Hvalue _ IH]; [done|].
  cbn [forallb]. intros [Hkv Hrest]%andb_true_iff.
  simpl in Hvalue. cbn [prepareKeys]. rewrite (IH Hrest).
  unfold plainProperty in Hkv.
  destruct value; try done;
    apply andb_true_iff in Hkv as [Hkey Hplain];
    try (by simpl in Hplain);
    apply negb_true_iff in Hkey; unfold setKey; rewrite Hkey;
    try done; by rewrite (Hvalue Hplain).
Qed.

Lemma plain_is_fixed (v : Js Num) : isPlain v = true → prepare v = v.
Proof.
  induction v as [| | b | n | s | props IH | b | low high unsigned | elems IH | props IH]
    using Js_nested_ind; try done.
  - simpl. intros Hall. f_equal.
    induction IH as [|x elems Hx _ IHelems]; [done|].
    simpl in Hall. apply andb_true_iff in Hall as [Hplain Hall].
    simpl. by rewrite (Hx Hplain), (IHelems Hall).
  - intros Hall. rewrite (proj1 (prepare_object props)). f_equal.
    by apply prepareKeys_fixed.
Qed.

(** X11. Preparing a value twice gives what preparing it once gives. *)
Theorem prepareForStringifyObject_idempotent (obj : Js Num) :
  prepare (prepare obj) = prepare obj.
Proof. apply plain_is_fixed, prepare_is_plain. Qed.

(** X12. What [prepareForStringifyObject] returns holds no Buffer, no Long
    and no function at any depth, and no object in it has a property that
    is [undefined]; the values that it returns as they are, are exactly the
    values of that kind. *)
Theorem prepareForStringifyObject_result_is_plain (obj : Js Num) :
  isPlain (prepare obj) = true
  ∧ (prepare obj = obj ↔ isPlain obj = true).
Proof.
  split; [apply prepare_is_plain|]. split.
  - intros Heq. rewrite <- Heq. apply prepare_is_plain.
  - apply plain_is_fixed.
Qed.
End StringifyFacts.

(** ** witnessGroupDefinition.js: construction *)

Lemma hex_round_trip_byte (x : Byte.byte) (s : string) :
  Buffer_from_hex
    (String (hexDigit (Byte.to_N x / 16))
       (String (hexDigit (Byte.to_N x mod 16)) s))
  = x :: Buffer_from_hex s.
Proof. destruct x; reflexivity. Qed.

(** Decoding the hexadecimal text of a Buffer gives the Buffer. *)
Lemma hex_round_trip (b : Buffer) : Buffer_from_hex (Buffer_toString_hex b) = b.
Proof.
  induction b as [|x b IH]; [done|].
  cbn [Buffer_toString_hex]. cbv zeta. by rewrite hex_round_trip_byte, IH.
Qed.

Lemma mapResult_Throw {A B : Type} (f : A → Result B) (l : list A) (e : Exn) :
  mapResult f l = Throw e ↔
  ∃ k x, l !! k = Some x ∧ f x = Throw e
         ∧ ∀ j y, (j < k)%nat → l !! j = Some y → ∃ z, f y = Ok z.
Proof.
  induction l as [|x l IH]; simpl.
  - split; [done|]. by intros (k & y & Hk & _).
  - destruct (f x) as [y|e'] eqn:Hx.
    + assert (Hshift :
        (∃ k x', l !! k = Some x' ∧ f x' = Throw e
                 ∧ ∀ j z, (j < k)%nat → l !! j = Some z → ∃ w, f z = Ok w)
        ↔ (∃ k x', (x :: l) !! k = Some x' ∧ f x' = Throw e
                   ∧ ∀ j z, (j < k)%nat → (x :: l) !! j = Some z → ∃ w, f z = Ok w)).
      { split.
        - intros (k & x' & Hk & Hthrow & Hbefore).
          exists (S k), x'. split; [done|]. split; [done|].
          intros [|j] z Hj Hz; simpl in Hz.
          + injection Hz as <-. by exists y.
          + apply (Hbefore j z); [lia|done].
        - intros (k & x' & Hk & Hthrow & Hbefore).
          destruct k as [|k]; simpl in Hk; [congruence|].
          exists k, x'. split; [done|]. split; [done|].
          intros j z Hj Hz. apply (Hbefore (S j) z); [lia|done]. }
      rewrite <- Hshift, <- IH.
      destruct (mapResult f l) as [ys|e'']; [done|].
      split; by intros [= ->].
    + split.
      * intros [= ->]. exists 0%nat, x. split; [done|]. split; [done|]. intros; lia.
      * intros (k & x' & Hk & Hthrow & Hbefore).
        destruct k as [|k]; simpl in Hk; [congruence|].
        destruct (Hbefore 0%nat x) as [z Hz]; [lia|done|congruence].
Qed.

Lemma getQuorum_of_delegates (d : WitnessGroupDefinition.Data) (delegates : list Buffer) :
  WitnessGroupDefinition.quorum d = None ∨ WitnessGroupDefinition.quorum d = Some 0%nat →
  WitnessGroupDefinition.delegatesPublicKeys d = Some delegates →
  WitnessGroupDefinition.getQuorum d = Ok (Nat.div (length delegates) 2 + 1)%nat
  ∧ (length delegates < 2 * (Nat.div (length delegates) 2 + 1))%nat.
Proof.
  intros Hfalsy Hdel. split; [|apply half_plus_one_is_majority].
  unfold WitnessGroupDefinition.getQuorum, WitnessGroupDefinition.majorityOfKeys,
    WitnessGroupDefinition.parseInt_half.
  destruct Hfalsy as [-> | ->]; simpl; by rewrite Hdel.
Qed.

Section ConstructionFacts.
Variable v8_deSerialize : Buffer → Result WitnessGroupDefinition.Data.
Variable proto_verify : DefinitionObject → option string.
Variable proto_create : DefinitionObject → WitnessGroupDefinition.Data.

Local Abbreviation new :=
  (WitnessGroupDefinition_new v8_deSerialize proto_verify proto_create).
Local Abbreviation create :=
  (WitnessGroupDefinition_create v8_deSerialize proto_verify proto_create).

Lemma keyToBuffer_bytes (k : KeyArg) : keyToBuffer k = KeyBuffer (keyBytes k).
Proof. by destruct k. Qed.

Lemma create_accepted (groupId : nat) (keys : list KeyArg)
    (delegates : option (list KeyArg)) :
  proto_verify (createdObject groupId keys delegates) = None
  ∨ proto_verify (createdObject groupId keys delegates) = Some "" →
  create (Some groupId) (Some keys) delegates
  = Ok (proto_create
          {| obj_publicKeys := Some (KeyBuffer <$> (keyBytes <$> keys));
             obj_groupId := Some groupId;
             obj_delegatesPublicKeys :=
               Some (KeyBuffer <$> (keyBytes <$> default keys delegates));
             obj_quorum := None;
             obj_groupContractAddress := None |}).
Proof.
  intros Haccept.
  unfold WitnessGroupDefinition_create, WitnessGroupDefinition_new.
  assert (Hobj :
    {| obj_publicKeys := Some keys; obj_groupId := Some groupId;
       obj_delegatesPublicKeys :=
         match delegates with Some d => Some d | None => Some keys end;
       obj_quorum := None; obj_groupContractAddress := None |}
    = createdObject groupId keys delegates).
  { unfold createdObject. by destruct delegates. }
  rewrite Hobj.
  assert (Hkeys : ∀ l, map keyToBuffer l = KeyBuffer <$> (keyBytes <$> l)).
  { intros l. induction l as [|k l IH]; [done|].
    simpl. by rewrite keyToBuffer_bytes, IH. }
  assert (Hdone :
    keysToBuffers (createdObject groupId keys delegates)
    = {| obj_publicKeys := Some (KeyBuffer <$> (keyBytes <$> keys));
         obj_groupId := Some groupId;
         obj_delegatesPublicKeys :=
           Some (KeyBuffer <$> (keyBytes <$> default keys delegates));
         obj_quorum := None; obj_groupContractAddress := None |}).
  { unfold keysToBuffers, createdObject. simpl. by rewrite !Hkeys. }
  rewrite Hdone. by destruct Haccept as [-> | ->].
Qed.

(** X13. When the protobuf type finds nothing wrong with the object,
    [create] returns the message made from the object in which every key
    is a Buffer, a key given as text being decoded from hexadecimal, and in
    which the delegates are the given ones or, when none are given, the
    public keys.  A key given as the hexadecimal text of a Buffer is stored
    as that Buffer. *)
Theorem create_stores_keys_as_buffers (groupId : nat) (keys : list KeyArg)
    (delegates : option (list KeyArg)) :
  proto_verify (createdObject groupId keys delegates) = None
  ∨ proto_verify (createdObject groupId keys delegates) = Some "" →
  create (Some groupId) (Some keys) delegates
  = Ok (proto_create
          {| obj_publicKeys := Some (KeyBuffer <$> (keyBytes <$> keys));
             obj_groupId := Some groupId;
             obj_delegatesPublicKeys :=
               Some (KeyBuffer <$> (keyBytes <$> default keys delegates));
             obj_quorum := None;
             obj_groupContractAddress := None |})
  ∧ ∀ bs : list Buffer,
      keyBytes <$> (KeyHex <$> (Buffer_toString_hex <$> bs)) = bs
      ∧ keyBytes <$> (KeyBuffer <$> bs) = bs.
Proof.
  intros Haccept. split; [by apply create_accepted|].
  intros bs. split.
  - induction bs as [|b bs IH]; [done|].
    rewrite !fmap_cons. simpl. by rewrite hex_round_trip, IH.
  - induction bs as [|b bs IH]; [done|].
    rewrite !fmap_cons. simpl. by rewrite IH.
Qed.

(** X14. A group created from keys has, as quorum, one more than half the
    number of its delegates, rounded down, and the delegates are the public
    keys when none were given; this for a protobuf type that accepts the
    object and whose messages hold the list of delegates they were created
    with and no quorum of their own. *)
Theorem create_then_getQuorum (groupId : nat) (keys : list KeyArg)
    (delegates : option (list KeyArg)) :
  proto_verify (createdObject groupId keys delegates) = None
  ∨ proto_verify (createdObject groupId keys delegates) = Some "" →
  (∀ data bufs,
     obj_delegatesPublicKeys data = Some (KeyBuffer <$> bufs) →
     WitnessGroupDefinition.delegatesPublicKeys (proto_create data) = Some bufs) →
  (∀ data,
     obj_quorum data = None →
     WitnessGroupDefinition.quorum (proto_create data) = None
     ∨ WitnessGroupDefinition.quorum (proto_create data) = Some 0%nat) →
  ∃ d,
    create (Some groupId) (Some keys) delegates = Ok d
    ∧ WitnessGroupDefinition.getQuorum d
      = Ok (Nat.div (length (default keys delegates)) 2 + 1)%nat.
Proof.
  intros Haccept Hkeep Hquorum.
  rewrite (create_accepted groupId keys delegates Haccept).
  eexists. split; [reflexivity|].
  set (data := {| obj_publicKeys := Some (KeyBuffer <$> (keyBytes <$> keys));
                  obj_groupId := Some groupId;
                  obj_delegatesPublicKeys :=
                    Some (KeyBuffer <$> (keyBytes <$> default keys delegates));
                  obj_quorum := None; obj_groupContractAddress := None |}).
  rewrite (proj1 (getQuorum_of_delegates (proto_create data)
                    (keyBytes <$> default keys delegates)
                    (Hquorum data eq_refl) (Hkeep data _ eq_refl))).
  by rewrite length_fmap.
Qed.

(** X15. [getFromContractData] returns one definition for each entry, in
    their order, when every entry can be constructed; otherwise it throws
    what the construction of the first entry that cannot be constructed
    throws. *)
Theorem getFromContractData_all_or_first_error (arr : list ConstructorArg) :
  (∀ ds,
     getFromContractData v8_deSerialize proto_verify proto_create (Some arr) = Ok ds
     ↔ Forall2 (λ data d, new data = Ok d) arr ds)
  ∧ (∀ e,
     getFromContractData v8_deSerialize proto_verify proto_create (Some arr) = Throw e
     ↔ ∃ k data,
         arr !! k = Some data ∧ new data = Throw e
         ∧ ∀ j earlier, (j < k)%nat → arr !! j = Some earlier →
                        ∃ d, new earlier = Ok d).
Proof.
  split.
  - intros ds. apply mapResult_Ok.
  - intros e. apply mapResult_Throw.
Qed.
End ConstructionFacts.

Lemma keyBytes_of_buffers (bufs : list Buffer) :
  keyBytes <$> (KeyBuffer <$> bufs) = bufs.
Proof. induction bufs as [|b bufs IH]; [done|]. rewrite !fmap_cons. simpl. by rewrite IH. Qed.

Lemma demoProtoCreate_keeps_delegates (data : DefinitionObject) (bufs : list Buffer) :
  obj_delegatesPublicKeys data = Some (KeyBuffer <$> bufs) →
  WitnessGroupDefinition.delegatesPublicKeys (demoProtoCreate data) = Some bufs.
Proof.
  intros Hdel. unfold demoProtoCreate. simpl. rewrite Hdel. simpl.
  by rewrite keyBytes_of_buffers.
Qed.

Lemma demoProtoCreate_keeps_quorum (data : DefinitionObject) :
  obj_quorum data = None →
  WitnessGroupDefinition.quorum (demoProtoCreate data) = None
  ∨ WitnessGroupDefinition.quorum (demoProtoCreate data) = Some 0%nat.
Proof. intros Hq. left. exact Hq. Qed.

Lemma create_stores_keys_as_buffers_witness :
  WitnessGroupDefinition_create (λ _, Throw (JsTypeError "v8.deSerialize"))
    (λ _, None) demoProtoCreate (Some 7%nat)
    (Some [KeyHex "ab01"; KeyBuffer [xcd]%byte]) None
  = Ok {| WitnessGroupDefinition.publicKeys := Some [[xab; x01]; [xcd]]%byte;
          WitnessGroupDefinition.delegatesPublicKeys := Some [[xab; x01]; [xcd]]%byte;
          WitnessGroupDefinition.groupId := Some 7%nat;
          WitnessGroupDefinition.quorum := None;
          WitnessGroupDefinition.groupContractAddress := None |}.
Proof.
  exact (proj1 (create_stores_keys_as_buffers
                  (λ _, Throw (JsTypeError "v8.deSerialize")) (λ _, None)
                  demoProtoCreate 7%nat [KeyHex "ab01"; KeyBuffer [xcd]%byte] None
                  (or_introl eq_refl))).
Defined.

Lemma create_then_getQuorum_witness :
  ∃ d,
    WitnessGroupDefinition_create (λ _, Throw (JsTypeError "v8.deSerialize"))
      (λ _, None) demoProtoCreate (Some 7%nat)
      (Some [KeyHex "ab01"; KeyBuffer [xcd]%byte; KeyHex "ff"]) None = Ok d
    ∧ WitnessGroupDefinition.getQuorum d = Ok 2%nat.
Proof.
  exact (create_then_getQuorum
           (λ _, Throw (JsTypeError "v8.deSerialize")) (λ _, None)
           demoProtoCreate 7%nat [KeyHex "ab01"; KeyBuffer [xcd]%byte; KeyHex "ff"] None
           (or_introl eq_refl) demoProtoCreate_keeps_delegates
           demoProtoCreate_keeps_quorum).
Defined.

(** ** app.js: more on processTxInputs *)

Section MoreInputFacts.
Variable Crypto : CryptoFacade.
Variable types : Types.

Local Abbreviation processInput := (Application.processInput Crypto types).
Local Abbreviation processInputsFrom := (Application.processInputsFrom Crypto types).
Local Abbreviation processTxInputs := (Application.processTxInputs Crypto types).
Local Abbreviation _verifyPayToAddr := (Application._verifyPayToAddr Crypto types).
Local Abbreviation lookupUtxo := Application.lookupUtxo.

(** A claim that verifies had a proof, arguments of the types asked for,
    and a receiver that is the address derived from the recovered key. *)
Lemma verifyPayToAddr_Ok (address : Buffer) (signature : option Buffer)
    (buffSignedData : Buffer) :
  _verifyPayToAddr address signature buffSignedData = Ok tt →
  ∃ sig,
    signature = Some sig
    ∧ types_Address types address = true
    ∧ types_Signature types sig = true
    ∧ types_Hash256bit types buffSignedData = true
    ∧ address = getAddress_buffer Crypto (recoverPubKey Crypto buffSignedData sig).
Proof.
  unfold Application._verifyPayToAddr.
  destruct signature as [sig|]; [|done]. intros Hok. exists sig.
  destruct (types_Address types address); [|done].
  destruct (types_Signature types sig); [|done].
  destruct (types_Hash256bit types buffSignedData); [|done].
  simpl in Hok. unfold Buffer_equals in Hok.
  destruct (bool_decide _) eqn:Heq; [|done].
  by apply bool_decide_eq_true in Heq.
Qed.

(** In a run of the loop that returns, every input had coins and a claim
    that verified. *)
Lemma processInputsFrom_ok_claims tx mapUtxos l ins :
  ∀ i acc σ p total σ',
    wellKeyed (PatchDB.utxo_map p) → wellKeyed mapUtxos →
    σ !! l = Some p →
    processInputsFrom tx mapUtxos l i ins acc σ = (Ok total, σ') →
    ∀ k input,
      ins !! k = Some input →
      ∃ coins,
        coinsOfInput p mapUtxos input = Some coins
        ∧ _verifyPayToAddr (getReceiverAddr coins) (claimProofs tx !! (i + k)%nat)
            (Buffer_from_hex (hash_at tx (i + k))) = Ok tt.
Proof.
  induction ins as [|input ins IH]; intros i acc σ p total σ' Hwp Hws Hp; simpl.
  - intros _ k x Hk. by rewrite lookup_nil in Hk.
  - unfold bind at 1.
    destruct (processInput tx mapUtxos l i input σ) as [[coins|e1] σ1] eqn:Hturn;
      [|intros [=]].
    intros Hrest.
    apply processInput_inv in Hturn
      as (p0 & u & p1 & Hp0 & Hfound & Hlive & Hclaim & Hspend & ->).
    assert (p0 = p) as -> by congruence.
    destruct (spendCoins_effect p mapUtxos _ u _ coins (hash tx) Hwp Hws Hfound Hlive)
      as (p1' & Hspend' & Hmap & _).
    assert (p1' = p1) as -> by congruence.
    assert (Hwp1 : wellKeyed (PatchDB.utxo_map p1)).
    { rewrite Hmap. apply wellKeyed_after_spend; [done|].
      by apply (lookupUtxo_keyed p mapUtxos). }
    intros [|k] x Hk; simpl in Hk.
    + injection Hk as <-. exists coins. rewrite Nat.add_0_r.
      split; [|done]. unfold coinsOfInput. by rewrite Hfound.
    + destruct (IH (S i) _ _ p1 total σ' Hwp1 Hws (lookup_insert_eq _ _ _) Hrest k x Hk)
        as (c & Hc & Hverify).
      exists c. replace (i + S k)%nat with (S i + k)%nat by lia.
      split; [|done].
      rewrite (coinsOfInput_after_spend p p1 mapUtxos input u x Hfound Hmap) in Hc.
      by case_decide.
Qed.

(** X16. When [processTxInputs] returns, every input referred to coins that
    the patch laid over the snapshot held, and came with a claim proof of
    the right type from which the receiver of those very coins was
    recovered: coins are spent only by a proof that yields their
    receiver. *)
Theorem processTxInputs_spends_only_claimed_coins
    tx mapUtxos patchForBlock σ l σ0 p r total σ' :
  workingPatch patchForBlock σ = (l, σ0) →
  σ0 !! l = Some p →
  wellKeyed (PatchDB.utxo_map p) → wellKeyed mapUtxos →
  processTxInputs tx mapUtxos patchForBlock σ = (Ok (r, total), σ') →
  ∀ k input,
    inputs tx !! k = Some input →
    ∃ coins sig,
      coinsOfInput p mapUtxos input = Some coins
      ∧ claimProofs tx !! k = Some sig
      ∧ types_Address types (getReceiverAddr coins) = true
      ∧ types_Signature types sig = true
      ∧ types_Hash256bit types (Buffer_from_hex (hash_at tx k)) = true
      ∧ getReceiverAddr coins
        = getAddress_buffer Crypto
            (recoverPubKey Crypto (Buffer_from_hex (hash_at tx k)) sig).
Proof.
  intros Hwork Hp Hwp Hws. rewrite processTxInputs_unfold, Hwork. simpl.
  destruct (Application.processInputsFrom _ _ _ _ _ _ _ _ _) as [[t|e] σ1] eqn:Hloop;
    [|intros [=]].
  intros [= <- <- <-] k input Hk.
  destruct (processInputsFrom_ok_claims _ _ _ _ _ _ _ _ _ _ Hwp Hws Hp Hloop k input Hk)
    as (coins & Hcoins & Hverify).
  apply verifyPayToAddr_Ok in Hverify as (sig & Hsig & Ha & Hs & Hh & Heq).
  by exists coins, sig.
Qed.

(** X17. When [processTxInputs] returns, the store differs from the one
    before only at the working patch; there, exactly the outputs that the
    inputs refer to are gone, each carries the hash of the transaction as
    its spend-mark, and contracts, receipts and level are as they were. *)
Theorem processTxInputs_spends_exactly_the_inputs
    tx mapUtxos patchForBlock σ l σ0 p r total σ' :
  workingPatch patchForBlock σ = (l, σ0) →
  σ0 !! l = Some p →
  wellKeyed (PatchDB.utxo_map p) → wellKeyed mapUtxos →
  processTxInputs tx mapUtxos patchForBlock σ = (Ok (r, total), σ') →
  ∃ p',
    σ' = <[l := p']> σ0
    ∧ wellKeyed (PatchDB.utxo_map p')
    ∧ (∀ x, coinsOfInput p' mapUtxos x
            = if decide (inputKey x ∈ inputKey <$> inputs tx) then None
              else coinsOfInput p mapUtxos x)
    ∧ PatchDB.spent_by p' = spendMarks (hash tx) (inputs tx) (PatchDB.spent_by p)
    ∧ PatchDB.contract_map p' = PatchDB.contract_map p
    ∧ PatchDB.receipt_map p' = PatchDB.receipt_map p
    ∧ PatchDB.level p' = PatchDB.level p.
Proof.
  intros Hwork Hp Hwp Hws. rewrite processTxInputs_unfold, Hwork. simpl.
  destruct (Application.processInputsFrom _ _ _ _ _ _ _ _ _) as [[t|e] σ1] eqn:Hloop;
    [|intros [=]].
  intros [= <- <- <-].
  destruct (processInputsFrom_ok _ _ _ _ _ _ _ _ _ _ _ _ Hwp Hws Hp Hloop)
    as (p' & cs & Hstore & Hwp' & _ & _ & _ & Hview & Hmarks & Hc & Hr & Hl).
  by exists p'.
Qed.

(** X18. A transaction that names the same output in two of its inputs is
    never processed to the end: [processTxInputs] throws. *)
Theorem processTxInputs_rejects_repeated_output
    tx mapUtxos patchForBlock σ l σ0 p i j x y :
  workingPatch patchForBlock σ = (l, σ0) →
  σ0 !! l = Some p →
  wellKeyed (PatchDB.utxo_map p) → wellKeyed mapUtxos →
  inputs tx !! i = Some x → inputs tx !! j = Some y → i ≠ j →
  inputKey x = inputKey y →
  ∃ e σ', processTxInputs tx mapUtxos patchForBlock σ = (Throw e, σ').
Proof.
  intros Hwork Hp Hwp Hws Hi Hj Hij Hkey.
  rewrite processTxInputs_unfold, Hwork. simpl.
  destruct (Application.processInputsFrom _ _ _ _ _ _ _ _ _) as [[t|e] σ1] eqn:Hloop;
    [|by exists e, σ1].
  destruct (processInputsFrom_ok _ _ _ _ _ _ _ _ _ _ _ _ Hwp Hws Hp Hloop)
    as (p' & cs & _ & _ & _ & _ & Hnodup & _).
  exfalso. apply Hij.
  apply (NoDup_lookup _ i j (inputKey x) Hnodup).
  - by rewrite list_lookup_fmap, Hi.
  - by rewrite list_lookup_fmap, Hj, Hkey.
Qed.

(** After a run of the loop that returns, the patch holds a UTXO for the
    hash of every input, and for every hash it held one for before. *)
Lemma processInputsFrom_ok_held tx mapUtxos l ins :
  ∀ i acc σ p total σ' p',
    wellKeyed (PatchDB.utxo_map p) → wellKeyed mapUtxos →
    σ !! l = Some p →
    processInputsFrom tx mapUtxos l i ins acc σ = (Ok total, σ') →
    σ' !! l = Some p' →
    (∀ h, is_Some (PatchDB.utxo_map p !! h) → is_Some (PatchDB.utxo_map p' !! h))
    ∧ ∀ x, x ∈ ins →
           is_Some (PatchDB.utxo_map p' !! Buffer_toString_hex (txHash x)).
Proof.
  induction ins as [|input ins IH]; intros i acc σ p total σ' p' Hwp Hws Hp; simpl.
  - unfold ret. intros [= <- <-] Hp'. assert (p' = p) as -> by congruence.
    split; [done|]. by intros x Hx%elem_of_nil.
  - unfold bind at 1.
    destruct (processInput tx mapUtxos l i input σ) as [[coins|e1] σ1] eqn:Hturn;
      [|intros [=]].
    intros Hrest Hp'.
    apply processInput_inv in Hturn
      as (p0 & u & p1 & Hp0 & Hfound & Hlive & _ & Hspend & ->).
    assert (p0 = p) as -> by congruence.
    destruct (spendCoins_effect p mapUtxos _ u _ coins (hash tx) Hwp Hws Hfound Hlive)
      as (p1' & Hspend' & Hmap & _).
    assert (p1' = p1) as -> by congruence.
    assert (Hwp1 : wellKeyed (PatchDB.utxo_map p1)).
    { rewrite Hmap. apply wellKeyed_after_spend; [done|].
      by apply (lookupUtxo_keyed p mapUtxos). }
    destruct (IH (S i) _ _ p1 total σ' p' Hwp1 Hws (lookup_insert_eq _ _ _) Hrest Hp')
      as [Hkept Hnew].
    split.
    + intros h Hh. apply Hkept. rewrite Hmap, lookup_insert.
      by case_decide.
    + intros x Hx. apply elem_of_cons in Hx as [->|Hx]; [|by apply Hnew].
      apply Hkept. by rewrite Hmap, lookup_insert_eq.
Qed.

(** X19. An output that a processed transaction has spent cannot be spent
    again on the same patch: whatever the transaction and the snapshot,
    [processTxInputs] throws when one of its inputs refers to that
    output. *)
Theorem processTxInputs_single_spend
    tx mapUtxos l σ p r total σ' tx2 mapUtxos2 x j y :
  σ !! l = Some p →
  wellKeyed (PatchDB.utxo_map p) → wellKeyed mapUtxos → wellKeyed mapUtxos2 →
  processTxInputs tx mapUtxos (Some l) σ = (Ok (r, total), σ') →
  x ∈ inputs tx →
  inputs tx2 !! j = Some y →
  inputKey y = inputKey x →
  ∃ e σ'', processTxInputs tx2 mapUtxos2 (Some l) σ' = (Throw e, σ'').
Proof.
  intros Hp Hwp Hws Hws2 Hrun Hx Hj Hkey.
  rewrite processTxInputs_unfold in Hrun. simpl in Hrun.
  destruct (Application.processInputsFrom _ _ _ _ _ _ _ _ _) as [[t|e] σ1] eqn:Hloop;
    [|done].
  injection Hrun as <- <- <-.
  destruct (processInputsFrom_ok _ _ _ _ _ _ _ _ _ _ _ _ Hwp Hws Hp Hloop)
    as (p' & cs & -> & Hwp' & _ & _ & _ & Hview & _).
  pose proof (lookup_insert_eq σ l p') as Hp'.
  destruct (processInputsFrom_ok_held _ _ _ _ _ _ _ _ _ _ _ Hwp Hws Hp Hloop Hp')
    as [_ Hheld].
  destruct (Hheld x Hx) as [u' Hu'].
  assert (Hgone : coinsOfInput p' mapUtxos2 y = None).
  { specialize (Hview x). rewrite decide_True in Hview
      by (apply list_elem_of_fmap; by exists x).
    injection Hkey as Hhash Hidx.
    unfold coinsOfInput, Application.lookupUtxo, PatchDB.getUtxo in *.
    rewrite Hhash, Hidx. rewrite Hu' in Hview |- *. exact Hview. }
  rewrite processTxInputs_unfold. simpl.
  destruct (Application.processInputsFrom _ _ tx2 _ _ _ _ _ _) as [[t2|e2] σ2] eqn:Hloop2;
    [|by exists e2, σ2].
  destruct (processInputsFrom_ok _ _ _ _ _ _ _ _ _ _ _ _ Hwp' Hws2 Hp' Hloop2)
    as (p2 & cs2 & _ & _ & Hall & _).
  eapply Forall2_lookup_l in Hall as (c & _ & Hc); [|exact Hj].
  congruence.
Qed.

(** The loop changes no patch but the one it works on. *)
Lemma processInputsFrom_frame tx mapUtxos l ins :
  ∀ i acc σ r σ',
    processInputsFrom tx mapUtxos l i ins acc σ = (r, σ') →
    ∀ l', l' ≠ l → σ' !! l' = σ !! l'.
Proof.
  induction ins as [|input ins IH]; intros i acc σ r σ'; simpl.
  - unfold ret. by intros [= <- <-].
  - unfold bind at 1.
    destruct (processInput tx mapUtxos l i input σ) as [[coins|e1] σ1] eqn:Hturn.
    + intros Hrest l' Hl'. rewrite (IH _ _ _ _ _ Hrest l' Hl').
      apply processInput_inv in Hturn as (p0 & u & p1 & _ & _ & _ & _ & _ & ->).
      by rewrite lookup_insert_ne.
    + intros [= <- <-] l' Hl'.
      apply processInput_inv in Hturn. simpl in Hturn. by subst.
Qed.

(** X20. Whatever its outcome, [processTxInputs] leaves every patch of the
    store other than the one passed to it as it was; without a patch from
    the caller, that is every patch of the store. *)
Theorem processTxInputs_leaves_other_patches tx mapUtxos patchForBlock σ r σ' :
  processTxInputs tx mapUtxos patchForBlock σ = (r, σ') →
  ∀ l' p0, σ !! l' = Some p0 → patchForBlock ≠ Some l' → σ' !! l' = Some p0.
Proof.
  rewrite processTxInputs_unfold.
  destruct (Application.processInputsFrom _ _ _ _ _ _ _ _ _) as [res σ1] eqn:Hloop.
  intros Hout l' p0 Hl' Hne.
  assert (σ1 = σ') as <-.
  { destruct res; by injection Hout. }
  assert (Hdiff : l' ≠ (workingPatch patchForBlock σ).1).
  { destruct patchForBlock as [given|]; simpl; [congruence|].
    intros ->. pose proof (is_fresh (dom σ)) as Hfresh.
    apply Hfresh. apply elem_of_dom. by eexists. }
  rewrite (processInputsFrom_frame _ _ _ _ _ _ _ _ _ Hloop l' Hdiff).
  destruct patchForBlock as [given|]; simpl; [done|].
  rewrite lookup_insert_ne; [done|]. simpl in Hdiff.
  intros Heq. apply Hdiff. symmetry. exact Heq.
Qed.
End MoreInputFacts.

(** ** app.js: more on processPayments *)

Section MorePaymentFacts.

Lemma createCoins_live (p : PatchDB.t) (strHash : string) (idx : nat)
    (coins : Coins) :
  is_Some (PatchDB.coinsAt p strHash idx) →
  ∃ e, PatchDB.createCoins p strHash idx coins = (Throw e, p).
Proof.
  unfold PatchDB.coinsAt, PatchDB.createCoins. intros [c Hc].
  destruct (PatchDB.getUtxo p strHash) as [u|]; [|done]. simpl.
  rewrite Hc. by eexists.
Qed.

(** The loop of [processPayments] creates the coins of the outputs up to
    the first position that the patch already holds, and throws there; it
    returns when there is no such position. *)
Lemma processPaymentsFrom_outcome (strHash : string) (l : loc) (rest : list Coins) :
  ∀ i acc σ p,
    σ !! l = Some p →
    ∃ k p',
      (k ≤ length rest)%nat
      ∧ (∀ j, (j < k)%nat → PatchDB.coinsAt p strHash (i + j) = None)
      ∧ (∀ j coins, (j < k)%nat → rest !! j = Some coins →
                    PatchDB.coinsAt p' strHash (i + j) = Some coins)
      ∧ (∀ n, (n < i ∨ i + k ≤ n)%nat →
              PatchDB.coinsAt p' strHash n = PatchDB.coinsAt p strHash n)
      ∧ (∀ h, h ≠ strHash → PatchDB.getUtxo p' h = PatchDB.getUtxo p h)
      ∧ ((k = length rest
          ∧ Application.processPaymentsFrom strHash l i rest acc σ
            = (Ok (sumInOrder acc rest), <[l := p']> σ))
         ∨ ((k < length rest)%nat
            ∧ is_Some (PatchDB.coinsAt p strHash (i + k))
            ∧ ∃ e, Application.processPaymentsFrom strHash l i rest acc σ
                   = (Throw e, <[l := p']> σ))).
Proof.
  induction rest as [|coins rest IH]; intros i acc σ p Hp.
  - exists 0%nat, p. split; [done|]. split; [intros; lia|].
    split; [intros; lia|]. split; [done|]. split; [done|].
    left. split; [done|]. simpl. unfold ret. by rewrite insert_id.
  - destruct (PatchDB.coinsAt p strHash i) as [c|] eqn:Hat.
    + destruct (createCoins_live p strHash i coins) as [e He]; [by rewrite Hat|].
      exists 0%nat, p. split; [simpl; lia|]. split; [intros; lia|].
      split; [intros; lia|]. split; [done|]. split; [done|].
      right. split; [simpl; lia|]. rewrite Nat.add_0_r, Hat. split; [done|].
      exists e. simpl. unfold bind, callPatch. rewrite Hp, He.
      by rewrite insert_id.
    + destruct (createCoins_effect p strHash i coins Hat)
        as (p1 & Hcreate & Hnew & Hother & Hrest).
      destruct (IH (S i) (acc + getAmount coins)%float (<[l := p1]> σ) p1
                  (lookup_insert_eq _ _ _))
        as (k & p' & Hk & Hfree & Hmade & Hframe & Hothers & Hout).
      exists (S k), p'. split; [simpl; lia|]. split; [|split; [|split; [|split]]].
      * intros [|j] Hj; [by rewrite Nat.add_0_r|].
        rewrite <- (Hother (i + S j)%nat) by lia.
        replace (i + S j)%nat with (S i + j)%nat by lia. apply Hfree. lia.
      * intros [|j] c Hj Hc; simpl in Hc.
        -- injection Hc as <-. rewrite Nat.add_0_r, Hframe by lia. exact Hnew.
        -- replace (i + S j)%nat with (S i + j)%nat by lia. apply Hmade; [lia|done].
      * intros n Hn. rewrite Hframe by lia. apply Hother. lia.
      * intros h Hh. by rewrite Hothers, Hrest.
      * assert (Hstep : ∀ out,
            Application.processPaymentsFrom strHash l (S i) rest
              (acc + getAmount coins)%float (<[l := p1]> σ) = out →
            Application.processPaymentsFrom strHash l i (coins :: rest) acc σ = out).
        { intros out <-. cbn [Application.processPaymentsFrom].
          unfold bind at 1. unfold callPatch at 1. by rewrite Hp, Hcreate. }
        rewrite insert_insert_eq in Hout.
        destruct Hout as [[-> Hrun]|(Hlt & Hlive & e & Hrun)].
        -- left. split; [done|]. by apply Hstep.
        -- right. split; [simpl; lia|]. split; [|exists e; by apply Hstep].
           replace (i + S k)%nat with (S i + k)%nat by lia.
           by rewrite <- (Hother (S i + k)%nat) by lia.
Qed.

(** X21. [processPayments] returns exactly when the patch holds no live
    output of the transaction at the position of any of its outputs.  When
    it throws, it is not undone: the coins of the outputs before the first
    position that was taken have been created, and from that position on
    the patch is as it was. *)
Theorem processPayments_throws_iff_position_taken tx l σ p :
  σ !! l = Some p →
  ((∃ total σ', Application.processPayments tx l σ = (Ok total, σ'))
   ↔ ∀ i, (i < length (getOutCoins tx))%nat →
          PatchDB.coinsAt p (hash tx) i = None)
  ∧ (∀ e σ',
       Application.processPayments tx l σ = (Throw e, σ') →
       ∃ k p',
         (k < length (getOutCoins tx))%nat
         ∧ is_Some (PatchDB.coinsAt p (hash tx) k)
         ∧ σ' = <[l := p']> σ
         ∧ (∀ j coins, (j < k)%nat → getOutCoins tx !! j = Some coins →
                       PatchDB.coinsAt p' (hash tx) j = Some coins)
         ∧ (∀ n, (k ≤ n)%nat →
                 PatchDB.coinsAt p' (hash tx) n = PatchDB.coinsAt p (hash tx) n)).
Proof.
  intros Hp. unfold Application.processPayments.
  destruct (processPaymentsFrom_outcome (hash tx) l (getOutCoins tx) 0 0%float σ p Hp)
    as (k & p' & Hk & Hfree & Hmade & Hframe & _ & Hout).
  split; [split|].
  - intros (total & σ' & Hrun) i Hi.
    destruct Hout as [[-> _]|(_ & _ & e & Hthrow)]; [by apply (Hfree i)|].
    congruence.
  - intros Hall. destruct Hout as [[_ Hrun]|(Hlt & [c Hc] & _)]; [by eauto|].
    simpl in Hc. rewrite (Hall k Hlt) in Hc. done.
  - intros e σ' Hrun.
    destruct Hout as [[_ Hok]|(Hlt & Hlive & e' & Hthrow)]; [congruence|].
    exists k, p'. split; [done|]. split; [done|]. split; [congruence|].
    split; [exact Hmade|]. intros n Hn. apply Hframe. simpl. lia.
Qed.
End MorePaymentFacts.

Lemma processPayments_throws_iff_position_taken_witness :
  oneEmptyPatch !! 0%nat = Some PatchDB.empty
  ∧ ∃ total σ', Application.processPayments txIssue 0%nat oneEmptyPatch
                = (Ok total, σ').
Proof.
  split; [reflexivity|].
  apply (proj2 (proj1 (processPayments_throws_iff_position_taken txIssue 0%nat
                         oneEmptyPatch PatchDB.empty eq_refl))).
  intros i _. reflexivity.
Defined.

(** ** app.js: more on createContract *)

Section MoreContractFacts.
Variable TIMEOUT_CODE : nat.
Variable Crypto : CryptoFacade.
Variable vm_run : nat → string → Result (option Instance).
Variable strPredefinedClassesCode : string.

Local Abbreviation createContract :=
  (Application.createContract TIMEOUT_CODE Crypto vm_run strPredefinedClassesCode).

Lemma mapResult_one_error {A B : Type} (f : A → Result B) (l : list A) (e0 : Exn) :
  (∀ x e, f x = Throw e → e = e0) →
  (∃ x, x ∈ l ∧ ∃ e, f x = Throw e) →
  mapResult f l = Throw e0.
Proof.
  intros Honly. induction l as [|x l IH]; intros (y & Hy & e & He).
  - by apply elem_of_nil in Hy.
  - simpl. destruct (f x) as [z|e'] eqn:Hx.
    + apply elem_of_cons in Hy as [->|Hy]; [congruence|].
      rewrite IH; [done|]. exists y. split; [done|]. by exists e.
    + by rewrite (Honly x e' Hx).
Qed.

(** X22. [createContract] throws, and leaves the store as it found it,
    when the sandbox throws (with what the sandbox threw), when the code
    evaluates to a falsy value (a failed assertion), when the instance
    exports no method ([reduce] of an empty array), and when an exported
    name is no member of the instance; and whenever it throws, for
    whatever reason, the store is as it was. *)
Theorem createContract_throws_and_keeps_store tx l σ :
  (∀ e, vm_run TIMEOUT_CODE (strPredefinedClassesCode ++ getCode tx) = Throw e →
        createContract tx l σ = (Throw e, σ))
  ∧ (vm_run TIMEOUT_CODE (strPredefinedClassesCode ++ getCode tx) = Ok None →
     createContract tx l σ = (Throw AssertionError, σ))
  ∧ (∀ retVal,
       vm_run TIMEOUT_CODE (strPredefinedClassesCode ++ getCode tx) = Ok (Some retVal) →
       export retVal = [] →
       createContract tx l σ
       = (Throw (JsTypeError "Reduce of empty array with no initial value"), σ))
  ∧ (∀ retVal strFuncName,
       vm_run TIMEOUT_CODE (strPredefinedClassesCode ++ getCode tx) = Ok (Some retVal) →
       strFuncName ∈ export retVal →
       memberSource retVal strFuncName = None →
       createContract tx l σ
       = (Throw (JsTypeError "Cannot read properties of undefined (reading 'toString')"),
          σ))
  ∧ (∀ e σ', createContract tx l σ = (Throw e, σ') → σ' = σ).
Proof.
  split; [|split; [|split; [|split]]].
  - intros e Hrun. unfold Application.createContract. unfold_M. by rewrite Hrun.
  - intros Hrun. unfold Application.createContract. unfold_M. by rewrite Hrun.
  - intros retVal Hrun Hexport. unfold Application.createContract. unfold_M.
    by rewrite Hrun, Hexport.
  - intros retVal strFuncName Hrun Hin Hnone.
    unfold Application.createContract. unfold_M. rewrite Hrun.
    rewrite (mapResult_one_error _ _
               (JsTypeError "Cannot read properties of undefined (reading 'toString')")).
    + done.
    + intros x e. by destruct (memberSource retVal x); intros [=].
    + exists strFuncName. split; [done|]. rewrite Hnone. by eexists.
  - intros e σ' Hrun.
    pose proof (createContract_inv TIMEOUT_CODE Crypto vm_run
                  strPredefinedClassesCode tx l σ) as Hinv.
    by rewrite Hrun in Hinv.
Qed.

(** X23. When the sandbox hands back an instance whose exported names all
    are members, and there is at least one, [createContract] returns zero
    and the patch then holds, under the address derived from the hash of
    the transaction, a contract with the own properties of the instance as
    data and the sources of the exported members, one after the other in
    the order of [export()], as code; no other contract, no UTXO, no
    receipt and no other patch changes. *)
Theorem createContract_stores_contract tx l σ p retVal arrCode :
  σ !! l = Some p →
  vm_run TIMEOUT_CODE (strPredefinedClassesCode ++ getCode tx) = Ok (Some retVal) →
  Forall2 (λ strFuncName funcCode, memberSource retVal strFuncName = Some funcCode)
    (export retVal) arrCode →
  arrCode ≠ [] →
  ∃ p',
    createContract tx l σ = (Ok 0, <[l := p']> σ)
    ∧ PatchDB.contract_map p' !! getAddress Crypto (hash tx)
      = Some {| getStoredAddress := getAddress Crypto (hash tx);
                getData := ownProperties retVal;
                getContractCode := joinWith "" arrCode |}
    ∧ (∀ address, address ≠ getAddress Crypto (hash tx) →
                  PatchDB.contract_map p' !! address = PatchDB.contract_map p !! address)
    ∧ PatchDB.utxo_map p' = PatchDB.utxo_map p
    ∧ PatchDB.receipt_map p' = PatchDB.receipt_map p
    ∧ PatchDB.spent_by p' = PatchDB.spent_by p
    ∧ PatchDB.level p' = PatchDB.level p.
Proof.
  intros Hp Hrun Hall Hne.
  exists (PatchDB.setContract p (getAddress Crypto (hash tx)) (ownProperties retVal)
            (joinWith "" arrCode)).2.
  split.
  - unfold Application.createContract. unfold_M. rewrite Hrun.
    assert (Hmap :
      mapResult
        (λ strFuncName,
           match memberSource retVal strFuncName with
           | Some funcCode => Ok funcCode
           | None => Throw (JsTypeError "Cannot read properties of undefined (reading 'toString')")
           end) (export retVal) = Ok arrCode).
    { apply mapResult_Ok. eapply Forall2_impl; [exact Hall|].
      intros name src Hsrc. simpl in Hsrc. by rewrite Hsrc. }
    rewrite Hmap. destruct arrCode as [|first rest]; [done|].
    simpl. rewrite Hp. simpl. reflexivity.
  - simpl. split; [by rewrite lookup_insert_eq|].
    split; [|done]. intros address Haddr. by rewrite lookup_insert_ne.
Qed.
End MoreContractFacts.

(** ** The further properties on the scenarios *)

Example mergeSets_example :
  mergeSets ["a"; "b"] ["b"; "c"; "a"; "d"] = ["a"; "b"; "c"; "d"].
Proof. vm_compute. reflexivity. Qed.

Example getMapsKeys_example :
  getMapsKeys [[("a", 1); ("b", 2)]; []; [("b", 3); ("c", 4)]] = ["a"; "b"; "b"; "c"]
  ∧ getMapsKeysUnique [[("a", 1); ("b", 2)]; []; [("b", 3); ("c", 4)]]
    = ["a"; "b"; "c"].
Proof. split; vm_compute; reflexivity. Qed.

Example pick_example :
  pick (λ k, if String.eqb k "a" then Some 1
             else if String.eqb k "toString" then Some 0
             else None) ["a"; "zz"; "toString"; "a"]
  = {["a" := 1; "toString" := 0]}.
Proof. vm_compute. reflexivity. Qed.

Example stripAddressPrefix_example :
  stripAddressPrefix "Ux" "Ux6e2a" = "6e2a"
  ∧ stripAddressPrefix "Ux" "6e2a" = "6e2a"
  ∧ stripAddressPrefix "Ux" "UxUx6e" = "Ux6e"
  ∧ stripAddressPrefix "Ux" "U" = "U".
Proof. repeat split. Qed.

Example prepareForStringifyObject_example :
  prepareForStringifyObject sampleToNumber sampleValue
  = JObject [("hash", JString "ab01");
             ("amount", JNumber 5);
             ("list", JArray [JString "ff"; JUndefined; JObject []; JNumber 3]);
             ("inner", JObject [("ok", JBoolean true)])]
  ∧ prepareForStringifyObject sampleToNumber (JLong 5 0 false)
    = JObject [("low", JNumber 5); ("high", JNumber 0); ("unsigned", JBoolean false)]
  ∧ prepareForStringifyObject sampleToNumber (JArray [JLong 5 0 false])
    = JArray [JObject [("low", JNumber 5); ("high", JNumber 0);
                       ("unsigned", JBoolean false)]].
Proof. repeat split. Qed.

Lemma afterThreeInputs_run :
  Application.processTxInputs demoCrypto specTypes txThreeInputs genesisSnapshot
    (Some 0%nat) oneEmptyPatch
  = (Ok (0%nat, 300000%float), afterThreeInputs).
Proof.
  unfold afterThreeInputs.
  assert (Hfirst :
    (Application.processTxInputs demoCrypto specTypes txThreeInputs genesisSnapshot
       (Some 0%nat) oneEmptyPatch).1 = Ok (0%nat, 300000%float))
    by (vm_compute; reflexivity).
  rewrite <- Hfirst. apply surjective_pairing.
Qed.

Lemma processTxInputs_spends_only_claimed_coins_witness :
  workingPatch (Some 0%nat) oneEmptyPatch = (0%nat, oneEmptyPatch)
  ∧ oneEmptyPatch !! 0%nat = Some PatchDB.empty
  ∧ inputs txThreeInputs !! 1%nat = Some (spend 0)
  ∧ ∃ coins sig,
      coinsOfInput PatchDB.empty genesisSnapshot (spend 0) = Some coins
      ∧ claimProofs txThreeInputs !! 1%nat = Some sig
      ∧ getReceiverAddr coins
        = getAddress_buffer demoCrypto
            (recoverPubKey demoCrypto
               (Buffer_from_hex (hash_at txThreeInputs 1)) sig).
Proof.
  split; [reflexivity|]. split; [reflexivity|]. split; [reflexivity|].
  destruct (processTxInputs_spends_only_claimed_coins demoCrypto specTypes
              txThreeInputs genesisSnapshot (Some 0%nat) oneEmptyPatch 0%nat
              oneEmptyPatch PatchDB.empty 0%nat 300000%float afterThreeInputs
              eq_refl eq_refl wellKeyed_empty wellKeyed_genesisSnapshot
              afterThreeInputs_run 1%nat (spend 0) eq_refl)
    as (coins & sig & Hcoins & Hsig & _ & _ & _ & Heq).
  by exists coins, sig.
Defined.

Lemma processTxInputs_spends_exactly_the_inputs_witness :
  workingPatch (Some 0%nat) oneEmptyPatch = (0%nat, oneEmptyPatch)
  ∧ oneEmptyPatch !! 0%nat = Some PatchDB.empty
  ∧ ∃ p',
      afterThreeInputs = <[0%nat := p']> oneEmptyPatch
      ∧ coinsOfInput p' genesisSnapshot (spend 12) = None
      ∧ PatchDB.spent_by p'
        = spendMarks (hash txThreeInputs) (inputs txThreeInputs) ∅.
Proof.
  split; [reflexivity|]. split; [reflexivity|].
  destruct (processTxInputs_spends_exactly_the_inputs demoCrypto specTypes
              txThreeInputs genesisSnapshot (Some 0%nat) oneEmptyPatch 0%nat
              oneEmptyPatch PatchDB.empty 0%nat 300000%float afterThreeInputs
              eq_refl eq_refl wellKeyed_empty wellKeyed_genesisSnapshot
              afterThreeInputs_run)
    as (p' & Hstore & _ & Hview & Hmarks & _).
  exists p'. split; [exact Hstore|]. split; [|exact Hmarks].
  rewrite Hview. reflexivity.
Defined.

Lemma processTxInputs_rejects_repeated_output_witness :
  workingPatch (Some 0%nat) oneEmptyPatch = (0%nat, oneEmptyPatch)
  ∧ oneEmptyPatch !! 0%nat = Some PatchDB.empty
  ∧ inputs txSameInputTwice !! 0%nat = Some (spend 12)
  ∧ inputs txSameInputTwice !! 1%nat = Some (spend 12)
  ∧ ∃ e σ', Application.processTxInputs demoCrypto specTypes txSameInputTwice
              genesisSnapshot (Some 0%nat) oneEmptyPatch = (Throw e, σ').
Proof.
  split; [reflexivity|]. split; [reflexivity|]. split; [reflexivity|].
  split; [reflexivity|].
  apply (processTxInputs_rejects_repeated_output demoCrypto specTypes
           txSameInputTwice genesisSnapshot (Some 0%nat) oneEmptyPatch 0%nat
           oneEmptyPatch PatchDB.empty 0%nat 1%nat (spend 12) (spend 12)
           eq_refl eq_refl wellKeyed_empty wellKeyed_genesisSnapshot
           eq_refl eq_refl);
    [lia | reflexivity].
Defined.

Lemma processTxInputs_single_spend_witness :
  oneEmptyPatch !! 0%nat = Some PatchDB.empty
  ∧ spend 0 ∈ inputs txThreeInputs
  ∧ ∃ e σ'', Application.processTxInputs demoCrypto specTypes
               (txOf [spend 80; spend 0] [sigA; sigA] []) genesisSnapshot
               (Some 0%nat) afterThreeInputs = (Throw e, σ'').
Proof.
  assert (Hin : spend 0 ∈ inputs txThreeInputs).
  { right. left. }
  split; [reflexivity|]. split; [exact Hin|].
  exact (processTxInputs_single_spend demoCrypto specTypes txThreeInputs
           genesisSnapshot 0%nat oneEmptyPatch PatchDB.empty 0%nat 300000%float
           afterThreeInputs (txOf [spend 80; spend 0] [sigA; sigA] [])
           genesisSnapshot (spend 0) 1%nat (spend 0)
           eq_refl wellKeyed_empty wellKeyed_genesisSnapshot
           wellKeyed_genesisSnapshot afterThreeInputs_run Hin eq_refl eq_refl).
Defined.

Lemma processTxInputs_leaves_other_patches_witness :
  twoEmptyPatches !! 1%nat = Some PatchDB.empty
  ∧ (Application.processTxInputs demoCrypto specTypes txThreeInputs genesisSnapshot
       (Some 0%nat) twoEmptyPatches).2 !! 1%nat = Some PatchDB.empty.
Proof.
  split; [reflexivity|].
  apply (processTxInputs_leaves_other_patches demoCrypto specTypes txThreeInputs
           genesisSnapshot (Some 0%nat) twoEmptyPatches _ _
           (surjective_pairing _) 1%nat PatchDB.empty eq_refl).
  discriminate.
Defined.

Lemma createContract_throws_and_keeps_store_witness :
  vmExportingNothing 10%nat ("" ++ getCode txDeploy)
  = Ok (Some {| ownProperties := [("_data", JsNum 10)]; export := [];
                memberSource := λ _, None |})
  ∧ Application.createContract 10%nat demoCrypto vmExportingNothing "" txDeploy
      0%nat oneEmptyPatch
    = (Throw (JsTypeError "Reduce of empty array with no initial value"),
       oneEmptyPatch).
Proof.
  split; [reflexivity|].
  exact (proj1 (proj2 (proj2 (createContract_throws_and_keeps_store 10%nat demoCrypto
                                vmExportingNothing "" txDeploy 0%nat oneEmptyPatch)))
           _ eq_refl eq_refl).
Defined.

Lemma createContract_stores_contract_witness :
  oneEmptyPatch !! 0%nat = Some PatchDB.empty
  ∧ vmOfTest 10%nat ("" ++ getCode txDeploy) = Ok (Some contractInstance)
  ∧ ∃ p',
      Application.createContract 10%nat demoCrypto vmOfTest "" txDeploy 0%nat
        oneEmptyPatch = (Ok 0, <[0%nat := p']> oneEmptyPatch)
      ∧ PatchDB.contract_map p' !! getAddress demoCrypto (hash txDeploy)
        = Some {| getStoredAddress := getAddress demoCrypto (hash txDeploy);
                  getData := ownProperties contractInstance;
                  getContractCode := joinWith "" [strGetDataCode; strFunc2Code] |}.
Proof.
  split; [reflexivity|]. split; [reflexivity|].
  destruct (createContract_stores_contract 10%nat demoCrypto vmOfTest "" txDeploy
              0%nat oneEmptyPatch PatchDB.empty contractInstance
              [strGetDataCode; strFunc2Code] eq_refl eq_refl)
    as (p' & Hrun & Hstored & _).
  - repeat constructor.
  - discriminate.
  - by exists p'.
Defined.
